(** * decomp/exp: chunk classification, instruction dispatch and the x87
    register-stack lowering

    A shallow embedding of four pieces of the repository:
    - [Bin2ll]: [cmd/bin2ll/main.go] ([parseFile], [main]);
    - [X862go]: the statement generator [parseInst] and its helpers;
    - [Lift]: [lift/inst_fpu.go] ([fpush], [liftInstFILD]) together with a
      small-step semantics of the emitted IR;
    - [Dump]: the section listing ([dumpSections], [dumpSection]). *)

From Stdlib Require Import ZArith NArith String List Permutation.
From stdpp Require Import base decidable option list numbers strings sorting gmap.

Local Open Scope string_scope.
Local Open Scope list_scope.

(* ===================================================================== *)
(** ** cmd/bin2ll/main.go *)
(* ===================================================================== *)

Module Bin2ll.

(** [bin.Address]: an unsigned 64-bit address.  No arithmetic is done on
    addresses in this file, only comparison. *)
Definition Address := N.

(** Go errors.  [errors.WithStack] wraps an error (and maps nil to nil). *)
Inductive error :=
  | ErrIO (msg : string)
  | ErrDecode (msg : string)
  | WithStack (e : error).

(** [kind] represents the set of chunk kinds. *)
Inductive kind := kindNone | kindCode | kindData.

(** [Chunk] represents a chunk of bytes. *)
Record Chunk := mkChunk { ckind : kind; addr : Address }.

#[global] Instance kind_eq_dec : EqDecision kind.
Proof. solve_decision. Defined.
#[global] Instance Chunk_eq_dec : EqDecision Chunk.
Proof. solve_decision. Defined.

(** *** Sorting

    Modelled from the spec: [bin.Addresses] is the [sort.Interface] over
    address slices declared in package [bin]; it orders addresses
    ascending ([Less(i, j)] is [a[i] < a[j]]), like the [less] closure that
    [parseFile] hands to [sort.Slice].

    [sort.Sort] and [sort.Slice] are the Go standard library; they are
    embedded by their contract: the result is a permutation of the input
    in which no later element is [less] than an earlier one.  [sortBy]
    is one function meeting that contract; [sortBy_unique] below shows
    that, when no two elements tie, it is the only one. *)
Definition notAfter {A} (less : A → A → Prop) : relation A :=
  λ x y, ¬ less y x.

Definition sortBy {A} (less : A → A → Prop)
    `{!∀ x y, Decision (less x y)} (l : list A) : list A :=
  merge_sort (notAfter less) l.

Definition lessAddr (a b : Address) : Prop := (a < b)%N.
Definition lessChunk (c1 c2 : Chunk) : Prop := (addr c1 < addr c2)%N.

#[global] Instance lessAddr_dec a b : Decision (lessAddr a b).
Proof. unfold lessAddr. apply _. Defined.
#[global] Instance lessChunk_dec a b : Decision (lessChunk a b).
Proof. unfold lessChunk. apply _. Defined.

(** [sort.Sort(bin.Addresses(addrs))] *)
Definition sortAddresses (addrs : list Address) : list Address :=
  sortBy lessAddr addrs.

(** [sort.Slice(d.chunks, less)] *)
Definition sortChunks (cs : list Chunk) : list Chunk :=
  sortBy lessChunk cs.

Section ParseFile.

(** The handle type of an opened PE file ([*pe.File]). *)
Variable PEFile : Type.
(** The handle type of an opened ordinary file ([*os.File]). *)
Variable OSFile : Type.

(** What the file system answers: the outcome of [pe.Open], of [os.Open]
    and of decoding the JSON contents of an opened file as a list of
    addresses. *)
Record World := mkWorld {
  pe_Open : string → error + PEFile;
  os_Open : string → error + OSFile;
  json_Decode : OSFile → error + list Address
}.

(** A disassembler tracks information required to disassemble x86
    executables. *)
Record disassembler := mkDisassembler {
  file : PEFile;
  funcAddrs : list Address;
  blockAddrs : list Address;
  chunks : list Chunk
}.

(** [parseJSON] parses the given JSON file and stores the result into v. *)
Definition parseJSON (w : World) (jsonPath : string) : error + list Address :=
  match os_Open w jsonPath with
  | inl err => inl (WithStack err)
  | inr f => json_Decode w f
  end.

(** [parseAddrs] parses the given JSON file and returns the list of
    addresses contained within. *)
Definition parseAddrs (w : World) (jsonPath : string) : error + list Address :=
  match parseJSON w jsonPath with
  | inl err => inl (WithStack err)
  | inr addrs => inr addrs
  end.

(** The two loops of [parseFile] that append one chunk per address. *)
Definition appendChunks (k : kind) (addrs : list Address) (cs : list Chunk)
    : list Chunk :=
  fold_left (λ cs a, cs ++ [mkChunk k a]) addrs cs.

(** [parseFile] parses the given PE file and associated JSON files. *)
Definition parseFile (w : World) (binPath : string) : error + disassembler :=
  match pe_Open w binPath with
  | inl err => inl (WithStack err)
  | inr f =>
    match parseAddrs w "funcs.json" with
    | inl err => inl (WithStack err)
    | inr funcAddrs0 =>
      let funcAddrs := sortAddresses funcAddrs0 in
      match parseAddrs w "blocks.json" with
      | inl err => inl (WithStack err)
      | inr blockAddrs0 =>
        let blockAddrs := sortAddresses blockAddrs0 in
        match parseAddrs w "data.json" with
        | inl err => inl (WithStack err)
        | inr dataAddrs0 =>
          let dataAddrs := sortAddresses dataAddrs0 in
          let chunks := appendChunks kindCode blockAddrs [] in
          let chunks := appendChunks kindData dataAddrs chunks in
          inr (mkDisassembler f funcAddrs blockAddrs (sortChunks chunks))
        end
      end
    end
  end.

(** *** [main] *)

(** The parsed command line: the value given to [-func] (if the flag was
    given), the [-q] flag and the positional arguments. *)
Record CmdLine := mkCmdLine {
  flagFunc : option Address;
  flagQuiet : bool;
  positional : list string
}.

(** [flag.Var(&funcAddr, ...)]: [funcAddr] keeps its zero value unless the
    flag is given. *)
Definition funcAddrOf (c : CmdLine) : Address :=
  match flagFunc c with Some a => a | None => 0%N end.

(** The addresses [main] iterates over:
    [funcAddrs := d.funcAddrs; if funcAddr != 0 { funcAddrs = {funcAddr} }]. *)
Definition selectFuncAddrs (funcAddr : Address) (d : disassembler)
    : list Address :=
  if decide (funcAddr ≠ 0%N) then [funcAddr] else funcAddrs d.

(** The decoded function type and [d.decodeFunc], which live in another
    file of the command. *)
Variable Func : Type.
Variable decodeFunc : disassembler → Address → error + Func.

(** How a run of the tool ends. *)
Inductive Outcome :=
  | ExitUsage
  | Fatal (printed : list Func) (err : error)
  | Finished (printed : list Func).

(** The loop over the selected addresses; [printed] are the functions
    already handed to [pretty.Println]. *)
Fixpoint liftAll (d : disassembler) (addrs : list Address)
    (printed : list Func) : Outcome :=
  match addrs with
  | [] => Finished printed
  | a :: rest =>
    match decodeFunc d a with
    | inl err => Fatal printed err
    | inr f => liftAll d rest (printed ++ [f])
    end
  end.

Definition main (w : World) (c : CmdLine) : Outcome :=
  match positional c with
  | [binPath] =>
    match parseFile w binPath with
    | inl err => Fatal [] err
    | inr d => liftAll d (selectFuncAddrs (funcAddrOf c) d) []
    end
  | _ => ExitUsage
  end.

End ParseFile.

Arguments mkWorld {_ _}.
Arguments World : clear implicits.
Arguments disassembler : clear implicits.
Arguments pe_Open {_ _}.
Arguments os_Open {_ _}.
Arguments json_Decode {_ _}.
Arguments mkDisassembler {_}.
Arguments file {_}.
Arguments funcAddrs {_}.
Arguments blockAddrs {_}.
Arguments chunks {_}.
Arguments parseJSON {_ _}.
Arguments parseAddrs {_ _}.
Arguments parseFile {_ _}.
Arguments selectFuncAddrs {_}.
Arguments liftAll {_ _}.
Arguments main {_ _ _}.
Arguments ExitUsage {_}.
Arguments Fatal {_}.
Arguments Finished {_}.

(** Ascending order of the stored collections. *)
Definition ascending (l : list Address) : Prop := Sorted N.le l.
Definition chunksAscending (cs : list Chunk) : Prop :=
  Sorted (λ c1 c2, (addr c1 ≤ addr c2)%N) cs.
Definition chunksStrictlyAscending (cs : list Chunk) : Prop :=
  StronglySorted (λ c1 c2, (addr c1 < addr c2)%N) cs.

(** A file system in which every file opens and the three JSON files
    hold the given lists. *)
Definition sampleWorld (funcs blocks data : list Address)
    : World unit string :=
  mkWorld (λ _, inr tt) (λ path, inr path)
    (λ path,
       if String.eqb path "funcs.json" then inr funcs
       else if String.eqb path "blocks.json" then inr blocks
       else if String.eqb path "data.json" then inr data
       else inl (ErrDecode path)).

(** A decoder that decodes every address below 0x2000 (to the address
    itself, standing for the function there) and fails above. *)
Definition sampleDecode (d : disassembler unit) (a : Address)
    : error + Address :=
  if decide (a < 0x2000)%N then inr a else inl (ErrDecode "truncated").


End Bin2ll.

(* ===================================================================== *)
(** ** The statement generator: [parseInst] *)
(* ===================================================================== *)

Module X862go.

(** [x86asm.Op]: the operation mnemonic of a decoded instruction.  The
    mnemonics that [parseInst] names are constructors; every other
    mnemonic of the decoder's table is [OtherOp] with its name. *)
Inductive Op :=
  | RET | LEA | XOR | PUSH | POP
  | OtherOp (mnemonic : string).

(** [Op.String]. *)
Definition Op_String (op : Op) : string :=
  match op with
  | RET => "RET" | LEA => "LEA" | XOR => "XOR"
  | PUSH => "PUSH" | POP => "POP"
  | OtherOp m => m
  end.

(** [x86asm.Arg]: a register, a memory reference, an immediate, a
    relative offset, or nil. *)
Inductive Arg :=
  | ArgNil
  | Reg (r : N)
  | Mem (segment base : N) (scale : N) (index : N) (disp : Z)
  | Imm (i : Z)
  | Rel (r : Z).

(** [x86asm.Args] is an array of four arguments. *)
Record Args := mkArgs { arg0 : Arg; arg1 : Arg; arg2 : Arg; arg3 : Arg }.

(** [x86asm.Inst]: a decoded instruction.  It records the instruction's
    encoding and length, not the address it was decoded at. *)
Record Inst := mkInst {
  Prefix : list N;
  InstOp : Op;
  Opcode : N;
  InstArgs : Args;
  Mode : Z;
  AddrSize : Z;
  DataSize : Z;
  MemBytes : Z;
  Len : Z;
  PCRel : Z;
  PCRelOff : Z
}.

(** The fragment of [go/token] and [go/ast] that is built. *)
Inductive Token := ASSIGN | TokXOR.

Inductive Expr :=
  | Ident (name : string)
  | BasicLit (value : string)
  | StarExpr (x : Expr)
  | BinaryExpr (x : Expr) (op : Token) (y : Expr).

Inductive Stmt :=
  | ReturnStmt
  | AssignStmt (lhs : list Expr) (tok : Token) (rhs : list Expr).

(** An error made by [errutil.Newf]: its formatted message. *)
Record error := mkError { message : string }.

(** What a call leaves behind: the instructions dumped on standard output
    with [fmt.Printf("%#v\n", inst)], the returned statement (nil is
    [None]) and the returned error (nil is [None]). *)
Record Result := mkResult {
  printed : list Inst;
  stmt : option Stmt;
  err : option error
}.

Definition notImplemented (op : Op) : error :=
  mkError ("support for opcode " +:+ Op_String op +:+ " not yet implemented").

Section ParseInst.

(** [getArg] converts an argument into a Go expression; it is defined in
    another file of the command. *)
Variable getArg : Arg → Expr.

(** [parseLEA] parses the given LEA instruction. *)
Definition parseLEA (inst : Inst) : Result :=
  let x := getArg (arg0 (InstArgs inst)) in
  let y := getArg (arg1 (InstArgs inst)) in
  let lhs := x in
  let rhs := y in
  mkResult [] (Some (AssignStmt [lhs] ASSIGN [rhs])) None.

(** [parseBinaryInst] parses the given binary instruction. *)
Definition parseBinaryInst (inst : Inst) : Result :=
  let x := getArg (arg0 (InstArgs inst)) in
  let y := getArg (arg1 (InstArgs inst)) in
  match InstOp inst with
  | XOR =>
    let op := TokXOR in
    let lhs := x in
    let rhs := BinaryExpr x op y in
    mkResult [] (Some (AssignStmt [lhs] ASSIGN [rhs])) None
  | _ => mkResult [] None (Some (notImplemented (InstOp inst)))
  end.

(** [parseInst] parses the given assembly instruction and returns a
    corresponding Go statement. *)
Definition parseInst (inst : Inst) : Result :=
  match InstOp inst with
  | RET => mkResult [] (Some ReturnStmt) None
  | LEA => parseLEA inst
  | XOR => parseBinaryInst inst
  | PUSH | POP =>
    (* ignore for now. *)
    mkResult [] None None
  | OtherOp _ =>
    mkResult [inst] None (Some (notImplemented (InstOp inst)))
  end.

End ParseInst.

(** The mnemonics [parseInst] has a case for. *)
Definition hasRule (op : Op) : bool :=
  match op with
  | RET | LEA | XOR | PUSH | POP => true
  | OtherOp _ => false
  end.

(** Sample inputs. *)
Definition sampleGetArg (a : Arg) : Expr := Ident "x".
Definition sampleInst (op : Op) : Inst :=
  mkInst [] op 0 (mkArgs (Reg 1) (Imm 4) ArgNil ArgNil) 32 32 32 0 1 0 0.

(** [contains s t]: the string [t] occurs in [s]. *)
Fixpoint contains (s t : string) : bool :=
  if String.prefix t s then true
  else match s with
       | EmptyString => false
       | String _ s' => contains s' t
       end.

End X862go.

(* ===================================================================== *)
(** ** lift/inst_fpu.go *)
(* ===================================================================== *)

Module Lift.

(** *** The IR that is emitted (the fragment of [llir/llvm] in use) *)

Inductive Typ := I1 | I8 | I16 | I32 | I64 | X86_FP80.

(** A [*ir.BasicBlock]: blocks are heap objects, updated through their
    pointer after they were created; a pointer is an index into the
    arena of the blocks allocated so far. *)
Abbreviation BlockRef := nat (only parsing).
(** The identity of an instruction that has a result. *)
Abbreviation Local := nat (only parsing).
(** A storage cell (the memory an [alloca] stands for). *)
Abbreviation Cell := nat (only parsing).

Inductive Value :=
  | ConstInt (x : Z) (t : Typ)
  | LocalVal (id : Local)
  | Alloca (c : Cell).

Inductive IPred := IntEQ | IntNE.

Inductive Inst :=
  | InstLoad (id : Local) (src : Value)
  | InstStore (src dst : Value)
  | InstICmp (id : Local) (pred : IPred) (x y : Value)
  | InstSub (id : Local) (x y : Value)
  | InstSIToFP (id : Local) (from : Value) (to : Typ).

(** [ir.Case]: a constant and the block to branch to. *)
Definition Case := (Value * BlockRef)%type.

Inductive Terminator :=
  | TermBr (target : BlockRef)
  | TermCondBr (cond : Value) (targetTrue targetFalse : BlockRef)
  | TermSwitch (x : Value) (targetDefault : BlockRef) (cases : list Case)
  | TermUnreachable.

Record BasicBlock := mkBlock {
  Insts : list Inst;
  Term : option Terminator
}.

Definition emptyBlock : BasicBlock := mkBlock [] None.

(** *** The function under construction

    Modelled from the spec: the [Func] struct is declared in another file
    of package [lift]; of its fields, [fpush] and [liftInstFILD] use the
    block list of the embedded [*ir.Function], the cursor [cur], the
    pointer cell [st] and the slot cells [fpuStack] (8 fixed storage slots
    plus one pointer cell).  [arena] and [nextLocal] stand for the Go
    heap: the blocks and instructions allocated so far. *)
Record Func := mkFunc {
  arena : list BasicBlock;
  Blocks : list BlockRef;
  cur : BlockRef;
  st : Cell;
  fpuStack : list Cell;
  nextLocal : Local
}.

(** Code that emits into a [Func]. *)
Definition M (A : Type) : Type := Func → A * Func.

Definition ret {A} (x : A) : M A := λ f, (x, f).
Definition bind {A B} (c : M A) (k : A → M B) : M B :=
  λ f, let '(x, f') := c f in k x f'.

Notation "'do' x <- c ; k" := (bind c (λ x, k))
  (at level 10, x name, c at level 100, k at level 200).
Notation "'emit' c ; k" := (bind c (λ _, k))
  (at level 10, c at level 100, k at level 200).

Definition gets {A} (proj : Func → A) : M A := λ f, (proj f, f).

Definition updBlock (b : BlockRef) (g : BasicBlock → BasicBlock) : M unit :=
  λ f, (tt, mkFunc (alter g b (arena f)) (Blocks f) (cur f) (st f)
                   (fpuStack f) (nextLocal f)).

Definition addInst (i : Inst) (blk : BasicBlock) : BasicBlock :=
  mkBlock (Insts blk ++ [i]) (Term blk).
Definition setTerm (t : Terminator) (blk : BasicBlock) : BasicBlock :=
  mkBlock (Insts blk) (Some t).

Definition freshLocal : M Local :=
  λ f, (nextLocal f, mkFunc (arena f) (Blocks f) (cur f) (st f)
                            (fpuStack f) (S (nextLocal f))).

(** [&ir.BasicBlock{}] *)
Definition newBlock : M BlockRef :=
  λ f, (length (arena f),
        mkFunc (arena f ++ [emptyBlock]) (Blocks f) (cur f) (st f)
               (fpuStack f) (nextLocal f)).

(** [f.cur = b] *)
Definition setCur (b : BlockRef) : M unit :=
  λ f, (tt, mkFunc (arena f) (Blocks f) b (st f) (fpuStack f) (nextLocal f)).

(** [f.AppendBlock(b)] *)
Definition AppendBlock (b : BlockRef) : M unit :=
  λ f, (tt, mkFunc (arena f) (Blocks f ++ [b]) (cur f) (st f)
                   (fpuStack f) (nextLocal f)).

(** The methods of [*ir.BasicBlock] that are called. *)
Definition NewLoad (b : BlockRef) (src : Value) : M Value :=
  do id <- freshLocal;
  emit updBlock b (addInst (InstLoad id src));
  ret (LocalVal id).

Definition NewStore (b : BlockRef) (src dst : Value) : M unit :=
  updBlock b (addInst (InstStore src dst)).

Definition NewICmp (b : BlockRef) (pred : IPred) (x y : Value) : M Value :=
  do id <- freshLocal;
  emit updBlock b (addInst (InstICmp id pred x y));
  ret (LocalVal id).

Definition NewSub (b : BlockRef) (x y : Value) : M Value :=
  do id <- freshLocal;
  emit updBlock b (addInst (InstSub id x y));
  ret (LocalVal id).

Definition NewSIToFP (b : BlockRef) (from : Value) (to : Typ) : M Value :=
  do id <- freshLocal;
  emit updBlock b (addInst (InstSIToFP id from to));
  ret (LocalVal id).

Definition NewBr (b : BlockRef) (target : BlockRef) : M unit :=
  updBlock b (setTerm (TermBr target)).

Definition NewCondBr (b : BlockRef) (cond : Value) (tT tF : BlockRef)
    : M unit :=
  updBlock b (setTerm (TermCondBr cond tT tF)).

Definition NewSwitch (b : BlockRef) (x : Value) (targetDefault : BlockRef)
    (cases : list Case) : M unit :=
  updBlock b (setTerm (TermSwitch x targetDefault cases)).

Definition NewUnreachable (b : BlockRef) : M unit :=
  updBlock b (setTerm TermUnreachable).

(** *** [fpush] *)

(** The loop [for i, dst := range f.fpuStack[:]] of [fpush]: [i] is the
    index of the first of the remaining slots [dsts]. *)
Fixpoint fpushCases (src : Value) (end_ : BlockRef) (i : Z)
    (dsts : list Cell) (cases : list Case) : M (list Case) :=
  match dsts with
  | [] => ret cases
  | dst :: rest =>
    do block <- newBlock;
    emit NewBr block end_;
    emit setCur block;
    emit AppendBlock block;
    do c <- gets cur;
    emit NewStore c src (Alloca dst);
    fpushCases src end_ (i + 1) rest (cases ++ [(ConstInt i I8, block)])
  end.

(** [fpush] pushes the given value to the top of the FPU register stack,
    emitting code to f. *)
Definition fpush (src : Value) : M unit :=
  (* Decrement st. *)
  do c <- gets cur;
  do st_ <- gets st;
  do tmp1 <- NewLoad c (Alloca st_);
  do targetTrue <- newBlock;
  do targetFalse <- newBlock;
  do follow <- newBlock;
  emit NewBr targetTrue follow;
  emit NewBr targetFalse follow;
  let zero := ConstInt 0 I8 in
  do c <- gets cur;
  do cond <- NewICmp c IntEQ tmp1 zero;
  do c <- gets cur;
  emit NewCondBr c cond targetTrue targetFalse;
  emit setCur targetTrue;
  emit AppendBlock targetTrue;
  let seven := ConstInt 7 I8 in
  do c <- gets cur;
  emit NewStore c seven (Alloca st_);
  emit setCur targetFalse;
  emit AppendBlock targetFalse;
  let one := ConstInt 1 I8 in
  do c <- gets cur;
  do tmp2 <- NewSub c tmp1 one;
  do c <- gets cur;
  emit NewStore c tmp2 (Alloca st_);
  emit setCur follow;
  emit AppendBlock follow;
  (* Store arg at st(0). *)
  do end_ <- newBlock;
  do cur_ <- gets cur;
  do slots <- gets fpuStack;
  do cases <- fpushCases src end_ 0 slots [];
  emit setCur cur_;
  do c <- gets cur;
  do st' <- NewLoad c (Alloca st_);
  do defaultTarget <- newBlock;
  emit NewUnreachable defaultTarget;
  emit AppendBlock defaultTarget;
  do c <- gets cur;
  emit NewSwitch c st' defaultTarget cases;
  emit setCur end_;
  AppendBlock end_.

(** *** The code [fpush] leaves behind

    [l] is the first free instruction identity, [s] the pointer cell and
    [n] the number of blocks allocated before the call: the blocks that
    [fpush] allocates are [n] (targetTrue), [n + 1] (targetFalse),
    [n + 2] (follow), [n + 3] (end), [n + 4] to [n + 11] (one per slot)
    and [n + 12] (defaultTarget). *)

(** The current block after [fpush]: two more instructions and the
    two-way branch. *)
Definition fpushEntry (l : Local) (s : Cell) (n : BlockRef)
    (blk : BasicBlock) : BasicBlock :=
  mkBlock (Insts blk ++
             [InstLoad l (Alloca s);
              InstICmp (S l) IntEQ (LocalVal l) (ConstInt 0 I8)])
          (Some (TermCondBr (LocalVal (S l)) n (n + 1))).

Definition fpushSwitchCases (n : BlockRef) : list Case :=
  [(ConstInt 0 I8, n + 4); (ConstInt 1 I8, n + 5); (ConstInt 2 I8, n + 6);
   (ConstInt 3 I8, n + 7); (ConstInt 4 I8, n + 8); (ConstInt 5 I8, n + 9);
   (ConstInt 6 I8, n + 10); (ConstInt 7 I8, n + 11)].

Definition caseBlock (src : Value) (n : BlockRef) (slot : Cell)
    : BasicBlock :=
  mkBlock [InstStore src (Alloca slot)] (Some (TermBr (n + 3))).

(** The blocks [n], [n + 1], ... that [fpush] allocates, for 8 slots. *)
Definition fpushNew (src : Value) (l : Local) (s : Cell) (n : BlockRef)
    (slots : list Cell) : list BasicBlock :=
  [ mkBlock [InstStore (ConstInt 7 I8) (Alloca s)] (Some (TermBr (n + 2)));
    mkBlock [InstSub (S (S l)) (LocalVal l) (ConstInt 1 I8);
             InstStore (LocalVal (S (S l))) (Alloca s)]
            (Some (TermBr (n + 2)));
    mkBlock [InstLoad (S (S (S l))) (Alloca s)]
            (Some (TermSwitch (LocalVal (S (S (S l)))) (n + 12)
                     (fpushSwitchCases n)));
    emptyBlock ] ++
  (caseBlock src n <$> slots) ++
  [ mkBlock [] (Some TermUnreachable) ].

(** The order in which [fpush] appends its blocks to the function. *)
Definition fpushAppended (n : BlockRef) : list BlockRef :=
  [n; n + 1; n + 2; n + 4; n + 5; n + 6; n + 7; n + 8; n + 9; n + 10;
   n + 11; n + 12; n + 3].

(** The cursor stands in an allocated block that has no terminator yet,
    and there are 8 slots. *)
Definition openCursor (f : Func) : Prop :=
  length (fpuStack f) = 8 ∧
  ∃ blk, arena f !! cur f = Some blk ∧ Term blk = None.

(** The value is a constant, a cell, or the result of an instruction
    made before the one with identity [l]. *)
Definition availableAt (l : Local) (v : Value) : Prop :=
  match v with
  | LocalVal id => id < l
  | _ => True
  end.

(** The value was made before the next instruction of [f] is. *)
Definition definedBefore (f : Func) (v : Value) : Prop :=
  availableAt (nextLocal f) v.

(** Consecutive pushes. *)
Definition pushAll (srcs : list Value) (f : Func) : Func :=
  foldl (λ f src, (fpush src f).2) f srcs.

(** The register stack as the hardware has it: the pointer after a push
    and after [k] pushes. *)
Definition dec (p : Z) : Z := if (p =? 0)%Z then 7%Z else (p - 1)%Z.
Definition decN (k : nat) (p : Z) : Z := Nat.iter k dec p.

(** The slot cell with index [p]. *)
Definition slotAt (f : Func) (p : Z) : option Cell :=
  fpuStack f !! Z.to_nat p.

(** *** [liftInstFILD] *)

Section FILD.

(** The decoded instruction of package [x86] with its operand accessor
    [Arg], and [useArg], which emits the code reading an operand and
    returns its value; all three are declared outside this file. *)
Variable X86Inst X86Arg : Type.
Variable Inst_Arg : X86Inst → nat → X86Arg.
Variable useArg : X86Arg → M Value.

(** [liftInstFILD] lifts the given x87 FILD instruction to LLVM IR,
    emitting code to f.  The result is the returned error (nil is
    [None]). *)
Definition liftInstFILD (inst : X86Inst) : M (option string) :=
  do arg <- useArg (Inst_Arg inst 0);
  do c <- gets cur;
  do src <- NewSIToFP c arg X86_FP80;
  emit fpush src;
  ret None.

End FILD.

(** *** Running the emitted IR *)

Definition bits (t : Typ) : Z :=
  match t with
  | I1 => 1 | I8 => 8 | I16 => 16 | I32 => 32 | I64 => 64 | X86_FP80 => 80
  end.

(** An integer of type [t] is kept as its unsigned value below
    [2 ^ bits t]. *)
Definition wrap (t : Typ) (z : Z) : Z := z mod 2 ^ bits t.

(** The signed reading of an integer of type [t]. *)
Definition signed (t : Typ) (z : Z) : Z :=
  if (z <? 2 ^ (bits t - 1))%Z then z else (z - 2 ^ bits t)%Z.

Section Semantics.

(** The extended-precision values and the conversion [sitofp] computes;
    nothing here depends on how they are represented. *)
Variable float : Type.
Variable sitofp : Z → float.

Inductive RVal :=
  | RInt (t : Typ) (z : Z)
  | RFloat (x : float)
  | RPtr (c : Cell).

Inductive Event :=
  | EvEnter (b : BlockRef)
  | EvStore (c : Cell) (v : RVal).

(** A machine state: the program point (block and index of the next
    instruction), the cells, the instruction results computed so far,
    and what happened (latest event last). *)
Record Machine := mkMachine {
  pcBlock : BlockRef;
  pcIdx : nat;
  mem : gmap Cell RVal;
  env : gmap Local RVal;
  trace : list Event
}.

Inductive Step :=
  | Next (m : Machine)
  | Halt
  | Fault.

Definition eval (e : gmap Local RVal) (v : Value) : option RVal :=
  match v with
  | ConstInt x t => Some (RInt t (wrap t x))
  | LocalVal id => e !! id
  | Alloca c => Some (RPtr c)
  end.

Definition setLocal (id : Local) (v : RVal) (m : Machine) : Step :=
  Next (mkMachine (pcBlock m) (S (pcIdx m)) (mem m) (<[id := v]> (env m))
                  (trace m)).

Definition jump (b : BlockRef) (m : Machine) : Step :=
  Next (mkMachine b 0 (mem m) (env m) (trace m ++ [EvEnter b])).

Definition Typ_eqb (t u : Typ) : bool :=
  match t, u with
  | I1, I1 | I8, I8 | I16, I16 | I32, I32 | I64, I64
  | X86_FP80, X86_FP80 => true
  | _, _ => false
  end.

Definition execInst (i : Inst) (m : Machine) : Step :=
  match i with
  | InstLoad id src =>
    match eval (env m) src with
    | Some (RPtr c) =>
      match mem m !! c with
      | Some v => setLocal id v m
      | None => Fault
      end
    | _ => Fault
    end
  | InstStore src dst =>
    match eval (env m) src, eval (env m) dst with
    | Some v, Some (RPtr c) =>
      Next (mkMachine (pcBlock m) (S (pcIdx m)) (<[c := v]> (mem m)) (env m)
                      (trace m ++ [EvStore c v]))
    | _, _ => Fault
    end
  | InstICmp id pred x y =>
    match eval (env m) x, eval (env m) y with
    | Some (RInt t a), Some (RInt u b) =>
      if Typ_eqb t u then
        let r := match pred with
                 | IntEQ => (a =? b)%Z
                 | IntNE => negb (a =? b)%Z
                 end in
        setLocal id (RInt I1 (if r then 1 else 0)) m
      else Fault
    | _, _ => Fault
    end
  | InstSub id x y =>
    match eval (env m) x, eval (env m) y with
    | Some (RInt t a), Some (RInt u b) =>
      if Typ_eqb t u then setLocal id (RInt t (wrap t (a - b))) m else Fault
    | _, _ => Fault
    end
  | InstSIToFP id from to =>
    match eval (env m) from, to with
    | Some (RInt t a), X86_FP80 => setLocal id (RFloat (sitofp (signed t a))) m
    | _, _ => Fault
    end
  end.

(** The target of a switch on the integer [a] of type [t]: the first case
    with that constant, the default target if there is none. *)
Fixpoint switchTarget (t : Typ) (a : Z) (targetDefault : BlockRef)
    (cases : list Case) : BlockRef :=
  match cases with
  | [] => targetDefault
  | (ConstInt x u, b) :: rest =>
    if Typ_eqb t u && (wrap u x =? a)%Z then b
    else switchTarget t a targetDefault rest
  | _ :: rest => switchTarget t a targetDefault rest
  end.

Definition execTerm (t : Terminator) (m : Machine) : Step :=
  match t with
  | TermBr target => jump target m
  | TermCondBr cond targetTrue targetFalse =>
    match eval (env m) cond with
    | Some (RInt I1 z) =>
      jump (if (z =? 0)%Z then targetFalse else targetTrue) m
    | _ => Fault
    end
  | TermSwitch x targetDefault cases =>
    match eval (env m) x with
    | Some (RInt t a) => jump (switchTarget t a targetDefault cases) m
    | _ => Fault
    end
  | TermUnreachable => Fault
  end.

(** One step of the program whose blocks are [P].  A block without
    terminator is still open: execution halts at its end, where the
    emission cursor stands. *)
Definition step (P : list BasicBlock) (m : Machine) : Step :=
  match P !! pcBlock m with
  | None => Fault
  | Some blk =>
    match Insts blk !! pcIdx m with
    | Some i => execInst i m
    | None =>
      match Term blk with
      | Some t => execTerm t m
      | None => Halt
      end
    end
  end.

(** Exactly [n] steps. *)
Fixpoint stepn (n : nat) (P : list BasicBlock) (m : Machine)
    : option Machine :=
  match n with
  | O => Some m
  | S n' =>
    match step P m with
    | Next m' => stepn n' P m'
    | _ => None
    end
  end.

Inductive Run :=
  | Done (m : Machine)
  | Faulted (m : Machine)
  | OutOfFuel (m : Machine).

(** Run until the program halts. *)
Fixpoint run (fuel : nat) (P : list BasicBlock) (m : Machine) : Run :=
  match fuel with
  | O => OutOfFuel m
  | S fuel' =>
    match step P m with
    | Next m' => run fuel' P m'
    | Halt => Done m
    | Fault => Faulted m
    end
  end.

(** The state in which execution stands at the emission cursor of [f]:
    at the end of the instructions of the current block. *)
Definition atCursor (f : Func) (m : Machine) : Prop :=
  pcBlock m = cur f ∧
  ∃ blk, arena f !! cur f = Some blk ∧ pcIdx m = length (Insts blk).

(** The cells written, in order. *)
Definition storesOf (tr : list Event) : list Cell :=
  omap (λ e, match e with EvStore c _ => Some c | _ => None end) tr.

(** The blocks entered, in order. *)
Definition entered (tr : list Event) : list BlockRef :=
  omap (λ e, match e with EvEnter b => Some b | _ => None end) tr.

End Semantics.

Arguments RInt {_}.
Arguments RFloat {_}.
Arguments RPtr {_}.
Arguments EvEnter {_}.
Arguments EvStore {_}.
Arguments mkMachine {_}.
Arguments pcBlock {_}.
Arguments pcIdx {_}.
Arguments mem {_}.
Arguments env {_}.
Arguments trace {_}.
Arguments Next {_}.
Arguments Halt {_}.
Arguments Fault {_}.
Arguments Done {_}.
Arguments Faulted {_}.
Arguments OutOfFuel {_}.
Arguments eval {_}.
Arguments setLocal {_}.
Arguments jump {_}.
Arguments execInst {_}.
Arguments execTerm {_}.
Arguments step {_}.
Arguments stepn {_}.
Arguments run {_}.
Arguments atCursor {_}.
Arguments storesOf {_}.
Arguments entered {_}.

(** The program [P] holds the code of one [fpush]: the block [c] the
    cursor stood in, and the new blocks from [n] on.  Block [n + 3], the
    join block, is left out: it is the open block the next emission
    continues in. *)
Definition emittedPush (P : list BasicBlock) (c : BlockRef)
    (blk0 : BasicBlock) (src : Value) (l : Local) (s : Cell) (n : BlockRef)
    (slots : list Cell) : Prop :=
  P !! c = Some (fpushEntry l s n blk0) ∧
  ∀ k blk, k ≠ 3 → fpushNew src l s n slots !! k = Some blk →
           P !! (n + k) = Some blk.

(** What one push does, in order, when the pointer is [p] before it:
    the arm of the two-way branch, the store of the new pointer, the
    follow block, the case block of the new top, the store of the value
    in the slot, the join block. *)
Definition pushEvents {float} (s : Cell) (n : BlockRef) (p : Z)
    (slot : Cell) (v : RVal float) : list (Event float) :=
  [EvEnter (if (p =? 0)%Z then n else n + 1);
   EvStore s (RInt I8 (dec p));
   EvEnter (n + 2);
   EvEnter (n + (4 + Z.to_nat (dec p)));
   EvStore slot v;
   EvEnter (n + 3)].

(** The stores that went to slot cells. *)
Definition slotStores {float} (f : Func) (tr : list (Event float))
    : list Cell :=
  filter (λ c, c ∈ fpuStack f) (storesOf tr).

(** *** The register stack the emitted code stands for

    The hardware view of a push: the pointer [p] is decremented with
    wraparound and the value goes to the slot the new pointer names. *)
Definition slotCell (slots : list Cell) (p : Z) : Cell :=
  nth (Z.to_nat p) slots 0.

Definition pushOnce {float} (s : Cell) (slots : list Cell)
    (pm : Z * gmap Cell (RVal float)) (v : RVal float)
    : Z * gmap Cell (RVal float) :=
  (dec pm.1,
   <[slotCell slots (dec pm.1) := v]> (<[s := RInt I8 (dec pm.1)]> pm.2)).

Definition pushMany {float} (s : Cell) (slots : list Cell)
    (pm : Z * gmap Cell (RVal float)) (vs : list (RVal float))
    : Z * gmap Cell (RVal float) :=
  foldl (pushOnce s slots) pm vs.

(** The cells [k] pushes store to, in order, from pointer [p]. *)
Fixpoint pushStores (s : Cell) (slots : list Cell) (p : Z) (k : nat)
    : list Cell :=
  match k with
  | O => []
  | S k' => s :: slotCell slots (dec p) :: pushStores s slots (dec p) k'
  end.

(** The slots in the order in which pushes from pointer [p] reach them:
    [p - 1] down to 0, then 7 down to [p]. *)
Definition pushOrder (slots : list Cell) (p : Z) : list Cell :=
  reverse (take (Z.to_nat p) slots) ++ reverse (drop (Z.to_nat p) slots).

(** A function with one open entry block, pointer cell 0 and slot cells
    1 to 8. *)
Definition sampleFunc : Func :=
  mkFunc [emptyBlock] [0] 0 0 [1; 2; 3; 4; 5; 6; 7; 8] 0.

(** A machine at the cursor of [sampleFunc] whose pointer cell holds
    [p]; its floating-point values are integers, converted exactly. *)
Definition sampleMachine (p : Z) : Machine Z :=
  mkMachine 0 0 {[ 0 := RInt I8 p ]} ∅ [].

Definition sampleValue : Value := ConstInt 42 I64.

Definition sampleValues : list Value :=
  [ConstInt 1 I64; ConstInt 2 I64; ConstInt 3 I64; ConstInt 4 I64;
   ConstInt 5 I64; ConstInt 6 I64; ConstInt 7 I64; ConstInt 8 I64].

(** An operand resolution for immediate operands: the operand is its
    value, and no code is needed to read it. *)
Definition sampleUseArg (imm : Z) : M Value := ret (ConstInt imm I32).

End Lift.

(* ===================================================================== *)
(** ** cmd/bin2ll/main.go: the section listing *)
(* ===================================================================== *)

Module Dump.

Import Stdlib.Strings.Ascii.

Local Open Scope Z_scope.

(** [bin.Address] is a [uint64]: sums and differences wrap modulo 2^64.
    [int(x)] reinterprets a [uint64] as a signed 64-bit integer. *)
Definition u64 (z : Z) : Z := z mod 2 ^ 64.

Definition toInt (x : Z) : Z := if x <? 2 ^ 63 then x else x - 2 ^ 64.

(** Modelled from the spec: a section has a name, a start address, its
    byte contents, permission flags, a file offset and a declared memory
    size.  The type is declared in package [bin]; the fields are named as
    [dumpSection] uses them. *)
Record Sect := mkSect {
  Section_Name : string;
  Section_Addr : Z;
  Section_Offset : Z;
  Section_Data : list Byte.byte;
  Section_Perm : Z;
  Section_MemSize : Z
}.

(** Modelled from the spec: a data-directory descriptor is a relative
    address and a size ([pe.DataDirectory], both [uint32]). *)
Record DataDirectory := mkDataDirectory { RelAddr : Z; DirSize : Z }.

(** Modelled from the spec: a function is an address and its basic
    blocks, a basic block an address, its instructions and a terminator,
    which may be a dummy; an instruction has an address, a length in
    bytes and the decoded [x86asm.Inst].  The types are declared in
    package [disasm/x86]; [Inst_IsDummyTerm] is the result of the method
    [IsDummyTerm]. *)
Record Inst := mkInst {
  Inst_Addr : Z;
  Inst_Len : Z;
  Inst_Inst : X862go.Inst;
  Inst_IsDummyTerm : bool
}.

Record BasicBlock := mkBasicBlock {
  Block_Addr : Z;
  Block_Insts : list Inst;
  Block_Term : Inst
}.

Record Func := mkFunc {
  Func_Addr : Z;
  Func_Blocks : list BasicBlock
}.

(** The text that [dumpSection] writes, line by line.  Every line keeps
    the values that are formatted into it; the formatting itself
    ([fmt.Fprintf], [x86asm.IntelSyntax]) is the Go library. *)
Inductive Label :=
  | start | import_table | import_table_size
  | resource_table | resource_table_size | iat | iat_size.

Inductive Line :=
  | LabelLine (l : Label)
  | BlankLine
  | FuncHeader (a : Z) (sectName : string)
  | BlockHeader (a : Z)
  | InstLine (a : Z) (bytes : list Byte.byte) (pad : Z) (inst : Inst)
  | DataLine (a : Z) (b : Byte.byte) (char : bool).

Inductive Footer :=
  | Uninitialized (sectName : string) (pad : Z)
  | Padded (sectName : string) (pad : Z).

Record Listing := mkListing {
  header : string * Z * Z;
  body : list Line;
  footer : Footer
}.

(** How a call ends: it returns, it panics, or it does not return (the
    loop is run with fuel; [Hangs] is fuel exhausted). *)
Inductive Panic :=
  | IndexOutOfRange (i : Z)
  | UnableToLocateData (a : Z).

Inductive Walk :=
  | WalkDone (ls : list Line)
  | WalkPanic (p : Panic)
  | WalkHangs.

Inductive Dumped :=
  | DumpDone (l : Listing)
  | DumpPanic (p : Panic)
  | DumpHangs.

(** [strings.Replace(s, ".", "_", -1)]. *)
Fixpoint replaceDots (s : string) : string :=
  match s with
  | EmptyString => EmptyString
  | String c s' =>
    String (if Ascii.eqb c "."%char then "_"%char else c) (replaceDots s')
  end.

(** [strings.Repeat(" ", n)] is kept as its length [n]. *)
Definition len (s : string) : Z := Z.of_nat (String.length s).

(** The closure [data] of [dumpSections]. *)
Definition data (sect : Sect) (addr : Z) : option Byte.byte :=
  let i := toInt (u64 (addr - Section_Addr sect)) in
  if (i <? 0) || (i >=? Z.of_nat (length (Section_Data sect))) then None
  else Section_Data sect !! Z.to_nat (u64 (addr - Section_Addr sect)).

Definition prepend (ls : list Line) (w : Walk) : Walk :=
  match w with
  | WalkDone ls' => WalkDone (ls ++ ls')
  | other => other
  end.

Section DumpSection.

(** [bin.PermX] and [isPrint] are declared elsewhere in the repository. *)
Variable PermX : Z.
Variable isPrint : Byte.byte → bool.

Section Loop.

Variable sect : Sect.
Variables entry itAddr itEnd rsrcTableAddr rsrcTableEnd iatAddr iatEnd : Z.
Variable funcs : gmap Z Func.
Variable blocks : gmap Z BasicBlock.
Variable insts : gmap Z Inst.
Variable data : Z → option Byte.byte.
Variable end_ : Z.

(** The [switch addr] at the head of the loop body: the first case that
    equals [addr] is taken. *)
Definition labelAt (addr : Z) : list Line :=
  if addr =? entry then [LabelLine start]
  else if addr =? itAddr then [LabelLine import_table]
  else if addr =? itEnd then [LabelLine import_table_size]
  else if addr =? rsrcTableAddr then [LabelLine resource_table]
  else if addr =? rsrcTableEnd then [LabelLine resource_table_size]
  else if addr =? iatAddr then [LabelLine iat]
  else if addr =? iatEnd then [LabelLine iat_size]
  else [].

(** The function header and the basic block header. *)
Definition headersAt (addr : Z) : list Line :=
  (match funcs !! addr with
   | Some _ =>
     (if addr =? Section_Addr sect then [] else [BlankLine])
     ++ [FuncHeader addr (replaceDots (Section_Name sect))]
   | None => []
   end)
  ++ (match blocks !! addr with
      | Some _ => [BlockHeader addr]
      | None => []
      end).

(** The loop over the bytes of one instruction,
    [for i := 0; i < inst.Len; i++], with [n] rounds to go. *)
Fixpoint instBytes (addr : Z) (i : Z) (n : nat) : Z + list Byte.byte :=
  match n with
  | O => inr []
  | S n' =>
    match data (u64 (addr + i)) with
    | None => inl (u64 (addr + i))
    | Some b =>
      match instBytes addr (i + 1) n' with
      | inl a => inl a
      | inr bs => inr (b :: bs)
      end
    end
  end.

Definition instPad (n : Z) : Z :=
  let n := 80 - (len "  addr_401000:          db      "
                 + len "0x00" * n + len ", " * (n - 1)) in
  if n >? 0 then n else 1.

Definition dataAt (addr : Z) : list Line :=
  match data addr with
  | Some b => [DataLine addr b (isPrint b)]
  | None => []
  end.

Definition executable : bool := negb (Z.land (Section_Perm sect) PermX =? 0).

(** The loop [for addr := sect.Addr; addr <= end; { ... }].  An indexed
    instruction of an executable section is listed with its bytes and the
    loop goes on behind it ([continue]); otherwise the byte at [addr], if
    there is one, is listed as data and the loop goes on at [addr + 1].
    The headers of functions and blocks are written for executable
    sections only. *)
Fixpoint walk (fuel : nat) (addr : Z) : Walk :=
  match fuel with
  | O => WalkHangs
  | S fuel' =>
    if addr <=? end_ then
      match (if executable then insts !! addr else None) with
      | Some inst =>
        match instBytes addr 0 (Z.to_nat (Inst_Len inst)) with
        | inl a => WalkPanic (UnableToLocateData a)
        | inr bs =>
          prepend
            (labelAt addr ++ headersAt addr
             ++ [InstLine addr bs (instPad (Inst_Len inst)) inst])
            (walk fuel' (u64 (addr + Inst_Len inst)))
        end
      | None =>
        prepend
          (labelAt addr ++ (if executable then headersAt addr else [])
           ++ dataAt addr)
          (walk fuel' (u64 (addr + 1)))
      end
    else WalkDone []
  end.

End Loop.

Definition footerPad (sectName suffix : string) : Z :=
  let n := 24 - (len "   " + len sectName + len suffix) in
  if n >? 0 then n else 1.

Definition sectFooter (sect : Sect) : Footer :=
  let sectName := replaceDots (Section_Name sect) in
  if Section_MemSize sect >? Z.of_nat (length (Section_Data sect))
  then Uninitialized sectName (footerPad sectName "_size")
  else Padded sectName (footerPad sectName "_vsize").

(** [dumpSection] dumps the given section in NASM syntax. *)
Definition dumpSection (fuel : nat) (sect : Sect) (entry imageBase : Z)
    (dataDirs : list DataDirectory)
    (funcs : gmap Z Func) (blocks : gmap Z BasicBlock) (insts : gmap Z Inst)
    (data : Z → option Byte.byte) : Dumped :=
  let end_ := u64 (Section_Addr sect + Z.of_nat (length (Section_Data sect))) in
  match dataDirs !! 1%nat with
  | None => DumpPanic (IndexOutOfRange 1)
  | Some d1 =>
    let itAddr := u64 (imageBase + RelAddr d1) in
    let itEnd := u64 (itAddr + DirSize d1) in
    match dataDirs !! 2%nat with
    | None => DumpPanic (IndexOutOfRange 2)
    | Some d2 =>
      let rsrcTableAddr := u64 (imageBase + RelAddr d2) in
      let rsrcTableEnd := u64 (rsrcTableAddr + DirSize d2) in
      match dataDirs !! 12%nat with
      | None => DumpPanic (IndexOutOfRange 12)
      | Some d12 =>
        let iatAddr := u64 (imageBase + RelAddr d12) in
        let iatEnd := u64 (iatAddr + DirSize d12) in
        match walk sect entry itAddr itEnd rsrcTableAddr rsrcTableEnd
                iatAddr iatEnd funcs blocks insts data end_
                fuel (Section_Addr sect) with
        | WalkDone ls =>
          DumpDone
            (mkListing
               (Section_Name sect, Section_Offset sect, Section_Addr sect)
               ls (sectFooter sect))
        | WalkPanic p => DumpPanic p
        | WalkHangs => DumpHangs
        end
      end
    end
  end.

(** The index that [dumpSections] builds of the functions, basic blocks
    and instructions, in the order of its three nested loops. *)
Definition indexInsts (insts : gmap Z Inst) (l : list Inst) : gmap Z Inst :=
  foldl (λ m inst, <[Inst_Addr inst := inst]> m) insts l.

Definition indexBlock (acc : gmap Z BasicBlock * gmap Z Inst)
    (block : BasicBlock) : gmap Z BasicBlock * gmap Z Inst :=
  let blocks := <[Block_Addr block := block]> acc.1 in
  let insts := indexInsts acc.2 (Block_Insts block) in
  let insts :=
    if Inst_IsDummyTerm (Block_Term block) then insts
    else <[Inst_Addr (Block_Term block) := Block_Term block]> insts in
  (blocks, insts).

Definition indexFunc
    (acc : gmap Z Func * (gmap Z BasicBlock * gmap Z Inst)) (f : Func)
    : gmap Z Func * (gmap Z BasicBlock * gmap Z Inst) :=
  (<[Func_Addr f := f]> acc.1, foldl indexBlock acc.2 (Func_Blocks f)).

Definition index (fs : list Func)
    : gmap Z Func * (gmap Z BasicBlock * gmap Z Inst) :=
  foldl indexFunc (∅, (∅, ∅)) fs.

(** The optional header of the executable, as far as [dumpSections] reads
    it.  [ImageBase] and [EntryRelAddr] are added at the width of the
    header's fields, which is the [pe] library's business: [hdrAdd]. *)
Record OptHeader := mkOptHeader {
  ImageBase : Z;
  EntryRelAddr : Z;
  DataDirs : list DataDirectory
}.

Variable hdrAdd : Z → Z → Z.

(** [outDir] is the output directory given on the command line;
    [ioutil.WriteFile] is the world. *)
Variable outDir : string.
Variable filepath_Join : string → string → string.
Variable WriteFile : string → Listing → option Bin2ll.error.

Inductive Outcome :=
  | Returned (err : option Bin2ll.error)
  | Panicked (p : Panic)
  | Hangs.

Definition sectFile (sect : Sect) : string :=
  filepath_Join outDir (replaceDots (Section_Name sect) +:+ ".asm").

(** The loop over the sections; the files written so far are kept in
    the order of writing. *)
Fixpoint dumpEach (fuel : nat) (entry imageBase : Z)
    (dataDirs : list DataDirectory)
    (funcs : gmap Z Func) (blocks : gmap Z BasicBlock) (insts : gmap Z Inst)
    (sects : list Sect) : list (string * Listing) * Outcome :=
  match sects with
  | [] => ([], Returned None)
  | sect :: rest =>
    if (String.length (Section_Name sect) =? 0)%nat then
      dumpEach fuel entry imageBase dataDirs funcs blocks insts rest
    else
      match dumpSection fuel sect entry imageBase dataDirs
              funcs blocks insts (data sect) with
      | DumpPanic p => ([], Panicked p)
      | DumpHangs => ([], Hangs)
      | DumpDone buf =>
        match WriteFile (sectFile sect) buf with
        | Some err => ([], Returned (Some (Bin2ll.WithStack err)))
        | None =>
          let '(written, out) :=
            dumpEach fuel entry imageBase dataDirs funcs blocks insts rest in
          ((sectFile sect, buf) :: written, out)
        end
      end
  end.

(** [dumpSections] dumps the given sections in NASM syntax. *)
Definition dumpSections (fuel : nat) (sects : list Sect)
    (file : Bin2ll.error + OptHeader) (fs : list Func)
    : list (string * Listing) * Outcome :=
  let '(funcs, (blocks, insts)) := index fs in
  match file with
  | inl err => ([], Returned (Some (Bin2ll.WithStack err)))
  | inr optHdr =>
    let entry := hdrAdd (ImageBase optHdr) (EntryRelAddr optHdr) in
    let imageBase := ImageBase optHdr in
    dumpEach fuel entry imageBase (DataDirs optHdr) funcs blocks insts sects
  end.

End DumpSection.




(** The instructions that a list of functions holds: those of the
    blocks, and the terminators that are not dummies. *)
Definition blockInsts (b : BasicBlock) : list Inst :=
  Block_Insts b
  ++ (if Inst_IsDummyTerm (Block_Term b) then [] else [Block_Term b]).

Definition allInsts (fs : list Func) : list Inst :=
  fs ≫= (λ f, Func_Blocks f ≫= blockInsts).

(** What an index of instructions holds, against a list [l]: every entry
    is an instruction of [l] under its own address, and every
    instruction of [l] has its address indexed. *)
Definition indexes (m : gmap Z Inst) (l : list Inst) : Prop :=
  (∀ a i, m !! a = Some i → i ∈ l ∧ Inst_Addr i = a)
  ∧ (∀ i, i ∈ l → is_Some (m !! Inst_Addr i)).

(** The sections that are not segments: those with a name. *)
Definition named (sects : list Sect) : list Sect :=
  filter (λ s, Section_Name s ≠ EmptyString) sects.

(** A small executable section of four bytes, a header with its 16 data
    directories, and three instruction indexes: one whose instruction
    fits, one whose instruction runs past the section, and one with an
    instruction of length zero. *)
Definition sampleSect : Sect :=
  mkSect ".text" 0x401000 0x400 [Byte.x55; Byte.x8b; Byte.xec; Byte.xc3] 1 4.

Definition sampleSegment : Sect := mkSect EmptyString 0 0 [] 0 0.

Definition sampleDirs : list DataDirectory :=
  replicate 16 (mkDataDirectory 0 0).

Definition sampleHeader : OptHeader := mkOptHeader 0x400000 0x1000 sampleDirs.

Definition shortHeader : OptHeader :=
  mkOptHeader 0x400000 0x1000 (take 12 sampleDirs).

Definition instAt (a n : Z) : Inst := mkInst a n (X862go.sampleInst X862go.RET) false.


Definition longInsts : gmap Z Inst := {[ 0x401003 := instAt 0x401003 2 ]}.

Definition emptyInsts : gmap Z Inst := {[ 0x401000 := instAt 0x401000 0 ]}.

Definition sampleFuncs : list Func :=
  [mkFunc 0x401000
     [mkBasicBlock 0x401000 [instAt 0x401000 1; instAt 0x401001 2]
        (instAt 0x401003 1)]].

Definition sampleWrite (path : string) (buf : Listing)
    : option Bin2ll.error := None.

Definition sampleJoin (dir file : string) : string := dir +:+ "/" +:+ file.

End Dump.
Module Bin2llFacts.
Import Bin2ll.

Section Sorting.
Context {A : Type} (less : A → A → Prop) `{!∀ x y, Decision (less x y)}.

Lemma sortBy_Permutation (l : list A) : sortBy less l ≡ₚ l.
Proof. apply merge_sort_Permutation. Qed.

Hypothesis less_asym : ∀ x y, less x y → ¬ less y x.

Lemma notAfter_total : Total (notAfter less).
Proof.
  intros x y. unfold notAfter.
  destruct (decide (less y x)) as [Hl|Hl]; [right|left]; auto.
Qed.

Lemma sortBy_Sorted (l : list A) : Sorted (notAfter less) (sortBy less l).
Proof. apply (Sorted_merge_sort _ (Total0 := notAfter_total)). Qed.

End Sorting.

Lemma lessAddr_asym (a b : Address) : lessAddr a b → ¬ lessAddr b a.
Proof. unfold lessAddr. lia. Qed.

Lemma lessChunk_asym (a b : Chunk) : lessChunk a b → ¬ lessChunk b a.
Proof. unfold lessChunk. lia. Qed.

#[local] Instance notAfter_lessAddr_trans : Transitive (notAfter lessAddr).
Proof. intros x y z. unfold notAfter, lessAddr. lia. Qed.

#[local] Instance notAfter_lessChunk_trans : Transitive (notAfter lessChunk).
Proof. intros x y z. unfold notAfter, lessChunk. lia. Qed.

#[local] Instance notAfter_lessAddr_antisym : AntiSymm (=) (notAfter lessAddr).
Proof. intros x y. unfold notAfter, lessAddr. lia. Qed.

Lemma Sorted_impl {A} (R S : relation A) (l : list A) :
  (∀ x y, R x y → S x y) → Sorted R l → Sorted S l.
Proof.
  intros HRS. induction 1 as [|x l Hl IH Hhd]; constructor; auto.
  destruct Hhd; constructor; auto.
Qed.

Lemma sortAddresses_ascending (l : list Address) : ascending (sortAddresses l).
Proof.
  eapply Sorted_impl; [|apply (sortBy_Sorted lessAddr lessAddr_asym)].
  unfold notAfter, lessAddr. intros; lia.
Qed.

Lemma sortAddresses_Permutation (l : list Address) : sortAddresses l ≡ₚ l.
Proof. apply sortBy_Permutation. Qed.

Lemma sortChunks_ascending (cs : list Chunk) : chunksAscending (sortChunks cs).
Proof.
  eapply Sorted_impl; [|apply (sortBy_Sorted lessChunk lessChunk_asym)].
  unfold notAfter, lessChunk. intros; lia.
Qed.

Lemma sortChunks_Permutation (cs : list Chunk) : sortChunks cs ≡ₚ cs.
Proof. apply sortBy_Permutation. Qed.

(** Whatever sorting algorithm is used, the outcome on addresses is the
    same: a sorted permutation of a list of addresses is unique. *)
Lemma sortAddresses_unique (l l' : list Address) :
  l' ≡ₚ l → Sorted (notAfter lessAddr) l' → l' = sortAddresses l.
Proof.
  intros Hp Hs. apply (Sorted_unique (notAfter lessAddr)); auto.
  - apply (sortBy_Sorted lessAddr lessAddr_asym).
  - rewrite Hp. symmetry. apply sortBy_Permutation.
Qed.

(** The same for chunks no two of which have the same address. *)
Lemma sortChunks_unique (cs cs' : list Chunk) :
  NoDup (addr <$> cs) →
  cs' ≡ₚ cs → Sorted (notAfter lessChunk) cs' → cs' = sortChunks cs.
Proof.
  intros Hnd Hp Hs.
  apply (Sorted_unique_strong (notAfter lessChunk)); auto.
  - intros x1 x2 H1 H2 Hle1 Hle2.
    assert (addr x1 = addr x2) as Heq
      by (unfold notAfter, lessChunk in *; lia).
    rewrite Hp in H1. unfold sortChunks in H2.
    rewrite sortBy_Permutation in H2.
    apply list_elem_of_lookup in H1 as [i Hi].
    apply list_elem_of_lookup in H2 as [j Hj].
    assert (i = j) as ->.
    { eapply NoDup_lookup; [exact Hnd| |].
      - rewrite list_lookup_fmap, Hi. reflexivity.
      - rewrite list_lookup_fmap, Hj. simpl. by rewrite Heq. }
    congruence.
  - apply (sortBy_Sorted lessChunk lessChunk_asym).
  - rewrite Hp. symmetry. apply sortBy_Permutation.
Qed.

Lemma appendChunks_eq (k : kind) (addrs : list Address) (cs : list Chunk) :
  appendChunks k addrs cs = cs ++ (mkChunk k <$> addrs).
Proof.
  unfold appendChunks. revert cs.
  induction addrs as [|a addrs IH]; intros cs; simpl.
  - by rewrite app_nil_r.
  - rewrite IH, <- app_assoc. reflexivity.
Qed.


Lemma fmap_addr_mkChunk (k : kind) (l : list Address) :
  addr <$> (mkChunk k <$> l) = l.
Proof.
  induction l as [|a l IH]; [done|].
  rewrite !fmap_cons. simpl. by f_equal.
Qed.

Section ParseFileFacts.
Context {PEFile OSFile : Type}.
Implicit Types (w : World PEFile OSFile) (d : disassembler PEFile).

(** The chunk sequence [parseFile] builds from the block and data lists. *)
Definition classified (blocks data : list Address) : list Chunk :=
  sortChunks ((mkChunk kindCode <$> sortAddresses blocks) ++
              (mkChunk kindData <$> sortAddresses data)).

Lemma parseFile_ok w binPath f funcs blocks data :
  pe_Open w binPath = inr f →
  parseAddrs w "funcs.json" = inr funcs →
  parseAddrs w "blocks.json" = inr blocks →
  parseAddrs w "data.json" = inr data →
  parseFile w binPath =
    inr (mkDisassembler f (sortAddresses funcs) (sortAddresses blocks)
           (classified blocks data)).
Proof.
  intros Hf Hfu Hb Hd. unfold parseFile. rewrite Hf, Hfu, Hb, Hd.
  rewrite !appendChunks_eq. reflexivity.
Qed.

Lemma parseFile_inv w binPath d :
  parseFile w binPath = inr d →
  ∃ f funcs blocks data,
    pe_Open w binPath = inr f ∧
    parseAddrs w "funcs.json" = inr funcs ∧
    parseAddrs w "blocks.json" = inr blocks ∧
    parseAddrs w "data.json" = inr data ∧
    d = mkDisassembler f (sortAddresses funcs) (sortAddresses blocks)
          (classified blocks data).
Proof.
  unfold parseFile. intros H.
  destruct (pe_Open w binPath) as [|f] eqn:Hf; [discriminate|].
  destruct (parseAddrs w "funcs.json") as [|funcs] eqn:Hfu; [discriminate|].
  destruct (parseAddrs w "blocks.json") as [|blocks] eqn:Hb; [discriminate|].
  destruct (parseAddrs w "data.json") as [|data] eqn:Hd; [discriminate|].
  exists f, funcs, blocks, data. repeat split; auto.
  rewrite !appendChunks_eq in H. by inversion H.
Qed.

Lemma classified_Permutation blocks data :
  classified blocks data ≡ₚ
    (mkChunk kindCode <$> blocks) ++ (mkChunk kindData <$> data).
Proof.
  unfold classified. rewrite sortChunks_Permutation.
  by rewrite !sortAddresses_Permutation.
Qed.

Lemma classified_addrs blocks data :
  addr <$> classified blocks data ≡ₚ blocks ++ data.
Proof.
  by rewrite classified_Permutation, fmap_app, !fmap_addr_mkChunk.
Qed.

Lemma elem_of_classified blocks data c :
  c ∈ classified blocks data ↔
    (ckind c = kindCode ∧ addr c ∈ blocks) ∨
    (ckind c = kindData ∧ addr c ∈ data).
Proof.
  rewrite classified_Permutation, elem_of_app, !list_elem_of_fmap.
  split.
  - intros [[a [-> Ha]]|[a [-> Ha]]]; [left|right]; by simpl.
  - intros [[Hk Ha]|[Hk Ha]]; [left|right]; exists (addr c);
      (split; [destruct c; simpl in *; congruence | done]).
Qed.

Lemma ascending_NoDup_strict (cs : list Chunk) :
  chunksAscending cs → NoDup (addr <$> cs) → chunksStrictlyAscending cs.
Proof.
  intros Hs Hnd.
  assert (Transitive (λ c1 c2 : Chunk, (addr c1 ≤ addr c2)%N)) as Htr
    by (intros x y z; lia).
  apply (Sorted_StronglySorted _) in Hs.
  induction Hs as [|c cs Hs IH Hall]; [constructor|].
  rewrite fmap_cons in Hnd. apply NoDup_cons in Hnd as [Hc Hnd].
  constructor; [by apply IH|].
  rewrite Forall_forall in Hall |- *. intros c' Hc'.
  specialize (Hall c' Hc').
  assert (addr c ≠ addr c'); [|lia].
  intros Heq. apply Hc. rewrite Heq. by apply list_elem_of_fmap_2.
Qed.


(** C4.  Chunk classification of duplicate-free address lists that share
    no address (sorted or not: [parseFile] sorts them itself) succeeds
    and produces a chunk sequence that is strictly ascending by address
    and has exactly one chunk per input address; every basic-block
    address is a Code chunk, every data address a Data chunk, and there
    is no other chunk: function starts give none of their own. *)
Theorem classification_of_disjoint_lists w binPath f funcs blocks data :
  pe_Open w binPath = inr f →
  parseAddrs w "funcs.json" = inr funcs →
  parseAddrs w "blocks.json" = inr blocks →
  parseAddrs w "data.json" = inr data →
  NoDup blocks → NoDup data → (∀ a, a ∈ blocks → a ∉ data) →
  ∃ d, parseFile w binPath = inr d ∧
    chunksStrictlyAscending (chunks d) ∧
    addr <$> chunks d ≡ₚ blocks ++ data ∧
    (∀ a, a ∈ blocks → mkChunk kindCode a ∈ chunks d) ∧
    (∀ a, a ∈ data → mkChunk kindData a ∈ chunks d) ∧
    (∀ c, c ∈ chunks d →
       (ckind c = kindCode ∧ addr c ∈ blocks) ∨
       (ckind c = kindData ∧ addr c ∈ data)).
Proof.
  intros Hf Hfu Hb Hd Hnb Hnd Hdisj.
  eexists. split; [by apply parseFile_ok|]. simpl.
  split; [|split; [|split; [|split]]].
  - apply ascending_NoDup_strict; [apply sortChunks_ascending|].
    rewrite classified_addrs. apply NoDup_app. auto.
  - apply classified_addrs.
  - intros a Ha. apply elem_of_classified. by left.
  - intros a Ha. apply elem_of_classified. by right.
  - intros c Hc. by apply elem_of_classified.
Qed.

(** C5 (as the code has it).  When an address is in both the block list
    and the data list, classification does not reject the input: it
    succeeds and keeps a Code chunk and a Data chunk at that address. *)
Theorem shared_address_keeps_both_chunks w binPath f funcs blocks data a :
  pe_Open w binPath = inr f →
  parseAddrs w "funcs.json" = inr funcs →
  parseAddrs w "blocks.json" = inr blocks →
  parseAddrs w "data.json" = inr data →
  a ∈ blocks → a ∈ data →
  ∃ d, parseFile w binPath = inr d ∧
    mkChunk kindCode a ∈ chunks d ∧ mkChunk kindData a ∈ chunks d.
Proof.
  intros Hf Hfu Hb Hd Hab Had.
  eexists. split; [by apply parseFile_ok|]. simpl.
  split; apply elem_of_classified; [by left | by right].
Qed.

(** C6 (as the code has it).  For every input, the function addresses,
    the block addresses and the chunk sequence that [parseFile] stores
    are sorted ascending, and they hold each address as often as the
    input lists do: a repeated or shared address is not removed. *)
Theorem collections_sorted_ascending w binPath d :
  parseFile w binPath = inr d →
  ascending (funcAddrs d) ∧ ascending (blockAddrs d) ∧
  chunksAscending (chunks d) ∧
  ∃ funcs blocks data,
    parseAddrs w "funcs.json" = inr funcs ∧
    parseAddrs w "blocks.json" = inr blocks ∧
    parseAddrs w "data.json" = inr data ∧
    funcAddrs d ≡ₚ funcs ∧ blockAddrs d ≡ₚ blocks ∧
    addr <$> chunks d ≡ₚ blocks ++ data.
Proof.
  intros H. apply parseFile_inv in H
    as (f & funcs & blocks & data & Hf & Hfu & Hb & Hd & ->). simpl.
  split; [apply sortAddresses_ascending|].
  split; [apply sortAddresses_ascending|].
  split; [apply sortChunks_ascending|].
  exists funcs, blocks, data. repeat split; auto.
  - apply sortAddresses_Permutation.
  - apply sortAddresses_Permutation.
  - apply classified_addrs.
Qed.

End ParseFileFacts.

(** The example of the classification of [{0x1000, 0x1010}] and
    [{0x2000}]. *)
Example classification_example :
  parseFile (sampleWorld [0x1000] [0x1010; 0x1000] [0x2000])%N "a.exe" =
    inr (mkDisassembler tt [0x1000] [0x1000; 0x1010]
           [mkChunk kindCode 0x1000; mkChunk kindCode 0x1010;
            mkChunk kindData 0x2000])%N.
Proof. vm_compute. reflexivity. Qed.


Lemma classification_of_disjoint_lists_witness :
  ∃ d, parseFile (sampleWorld [0x1000] [0x1010; 0x1000] [0x2000])%N "a.exe"
         = inr d ∧
    chunksStrictlyAscending (chunks d) ∧
    addr <$> chunks d ≡ₚ ([0x1010; 0x1000] ++ [0x2000])%N ∧
    (∀ a, a ∈ [0x1010; 0x1000]%N → mkChunk kindCode a ∈ chunks d) ∧
    (∀ a, a ∈ [0x2000]%N → mkChunk kindData a ∈ chunks d) ∧
    (∀ c, c ∈ chunks d →
       (ckind c = kindCode ∧ addr c ∈ [0x1010; 0x1000]%N) ∨
       (ckind c = kindData ∧ addr c ∈ [0x2000]%N)).
Proof.
  apply (classification_of_disjoint_lists
           (sampleWorld [0x1000] [0x1010; 0x1000] [0x2000])%N "a.exe" tt
           [0x1000]%N);
    try reflexivity.
  - apply (bool_decide_unpack _). vm_compute. exact I.
  - apply (bool_decide_unpack _). vm_compute. exact I.
  - intros a Ha Hd. apply list_elem_of_singleton in Hd. subst a.
    revert Ha. apply (bool_decide_unpack _). vm_compute. exact I.
Defined.

Lemma shared_address_keeps_both_chunks_witness :
  ∃ d, parseFile (sampleWorld [] [1] [1])%N "a.exe" = inr d ∧
    mkChunk kindCode 1%N ∈ chunks d ∧ mkChunk kindData 1%N ∈ chunks d.
Proof.
  apply (shared_address_keeps_both_chunks
           (sampleWorld [] [1] [1])%N "a.exe" tt [] [1%N] [1%N] 1%N);
    try reflexivity; apply list_elem_of_singleton; reflexivity.
Defined.

(** C5, refuted as stated: with address 1 in both lists the input is
    accepted, no error is returned. *)
Lemma shared_address_is_not_rejected :
  (1%N ∈ [1%N] ∧ 1%N ∈ [1%N]) ∧
  ∃ d, parseFile (sampleWorld [] [1] [1])%N "a.exe" = inr d.
Proof.
  split; [split; apply list_elem_of_singleton; reflexivity|].
  eexists. vm_compute. reflexivity.
Qed.

Lemma collections_sorted_ascending_witness :
  let d := mkDisassembler tt [] [1; 1]%N
             [mkChunk kindCode 1; mkChunk kindCode 1]%N in
  parseFile (sampleWorld [] [1; 1] [])%N "a.exe" = inr d ∧
  ascending (funcAddrs d) ∧ ascending (blockAddrs d) ∧
  chunksAscending (chunks d) ∧
  ∃ funcs blocks data,
    parseAddrs (sampleWorld [] [1; 1] [])%N "funcs.json" = inr funcs ∧
    parseAddrs (sampleWorld [] [1; 1] [])%N "blocks.json" = inr blocks ∧
    parseAddrs (sampleWorld [] [1; 1] [])%N "data.json" = inr data ∧
    funcAddrs d ≡ₚ funcs ∧ blockAddrs d ≡ₚ blocks ∧
    addr <$> chunks d ≡ₚ blocks ++ data.
Proof.
  intros d.
  assert (parseFile (sampleWorld [] [1; 1] [])%N "a.exe" = inr d) as H
    by (vm_compute; reflexivity).
  split; [exact H|].
  exact (collections_sorted_ascending _ _ _ H).
Defined.

(** C6, refuted as stated: a block address given twice is kept twice, in
    the block addresses and in the chunk sequence. *)
Lemma duplicate_addresses_are_kept :
  ∃ d, parseFile (sampleWorld [] [1; 1] [])%N "a.exe" = inr d ∧
    ¬ NoDup (blockAddrs d) ∧ ¬ NoDup (addr <$> chunks d).
Proof.
  eexists. split; [vm_compute; reflexivity|]. simpl.
  split; intros H; apply NoDup_cons in H as [H _]; apply H; left.
Qed.

Section MainFacts.
Context {PEFile OSFile Func : Type}.
Variable decodeFunc : disassembler PEFile → Address → error + Func.

(** The loop of [main] on addresses that all decode: every function is
    printed, in the order of the addresses. *)
Lemma liftAll_decoded (d : disassembler PEFile) addrs fs printed :
  Forall2 (λ a f, decodeFunc d a = inr f) addrs fs →
  liftAll decodeFunc d addrs printed = Finished (printed ++ fs).
Proof.
  intros H. revert printed.
  induction H as [|a f addrs fs Ha _ IH]; intros printed; cbn [liftAll].
  - by rewrite app_nil_r.
  - rewrite Ha, IH, <- app_assoc. reflexivity.
Qed.

(** The loop of [main] stops at the first address that fails to decode. *)
Lemma liftAll_first_error (d : disassembler PEFile) pre fs a err post printed :
  Forall2 (λ a f, decodeFunc d a = inr f) pre fs →
  decodeFunc d a = inl err →
  liftAll decodeFunc d (pre ++ a :: post) printed = Fatal (printed ++ fs) err.
Proof.
  intros H Ha. revert printed.
  induction H as [|a' f pre fs Ha' _ IH]; intros printed;
    cbn [liftAll app].
  - by rewrite Ha, app_nil_r.
  - rewrite Ha', IH, <- app_assoc. reflexivity.
Qed.

(** C10.  Let the metadata of the binary parse to [d].  With [-func 0],
    or without [-func], [main] lifts the full list of function addresses
    of [d]: it runs the loop over [funcAddrs d], so it prints every
    function of the list when all of them decode, and stops with the
    functions before the first one that does not.  With a nonzero
    address it decodes the function at that address and no other.
    Whatever the value of the flag, the run is one of these two, so the
    function at address 0 is never selected on its own. *)
Theorem func_flag_zero_selects_all (w : World PEFile OSFile) (q : bool)
    (binPath : string) (d : disassembler PEFile) :
  parseFile w binPath = inr d →
  (∀ flag, flag = Some 0%N ∨ flag = None →
     let run := main decodeFunc w (mkCmdLine flag q [binPath]) in
     run = liftAll decodeFunc d (funcAddrs d) [] ∧
     (∀ fs, Forall2 (λ a f, decodeFunc d a = inr f) (funcAddrs d) fs →
            run = Finished fs) ∧
     (∀ pre fs a err post,
        funcAddrs d = pre ++ a :: post →
        Forall2 (λ a f, decodeFunc d a = inr f) pre fs →
        decodeFunc d a = inl err →
        run = Fatal fs err)) ∧
  (∀ p, main decodeFunc w (mkCmdLine (Some (Npos p)) q [binPath]) =
          match decodeFunc d (Npos p) with
          | inl err => Fatal [] err
          | inr f => Finished [f]
          end) ∧
  (∀ flag,
     main decodeFunc w (mkCmdLine flag q [binPath])
       = liftAll decodeFunc d (funcAddrs d) []
     ∨ ∃ p, flag = Some (Npos p)
            ∧ main decodeFunc w (mkCmdLine flag q [binPath])
              = liftAll decodeFunc d [Npos p] []).
Proof.
  intros Hd.
  assert (∀ flag, flag = Some 0%N ∨ flag = None →
            main decodeFunc w (mkCmdLine flag q [binPath])
            = liftAll decodeFunc d (funcAddrs d) []) as Hall.
  { intros flag [->| ->]; unfold main; cbn [positional]; rewrite Hd;
      reflexivity. }
  assert (∀ p, main decodeFunc w (mkCmdLine (Some (Npos p)) q [binPath])
               = liftAll decodeFunc d [Npos p] []) as Hone.
  { intros p. unfold main. cbn [positional]. rewrite Hd. reflexivity. }
  split; [|split].
  - intros flag Hflag run. subst run. rewrite (Hall flag Hflag).
    split; [reflexivity|]. split.
    + intros fs Hfs. by rewrite (liftAll_decoded d _ fs []).
    + intros pre fs a err post -> Hpre Ha.
      by rewrite (liftAll_first_error d pre fs a err post []).
  - intros p. rewrite Hone. cbn [liftAll].
    by destruct (decodeFunc d (N.pos p)).
  - intros [[|p]|].
    + left. apply Hall. by left.
    + right. exists p. split; [reflexivity|]. apply Hone.
    + left. apply Hall. by right.
Qed.

End MainFacts.

Lemma func_flag_zero_selects_all_witness :
  main sampleDecode (sampleWorld [0x1000; 0] [0x1000; 0] [])%N
       (mkCmdLine (Some 0%N) false ["a.exe"]) = Finished [0; 0x1000]%N
  ∧ main sampleDecode (sampleWorld [0x1000; 0] [0x1000; 0] [])%N
         (mkCmdLine (Some 0x1000%N) false ["a.exe"]) = Finished [0x1000]%N.
Proof.
  assert (parseFile (sampleWorld [0x1000; 0] [0x1000; 0] [])%N "a.exe"
          = inr (mkDisassembler tt [0; 0x1000] [0; 0x1000]
                   [mkChunk kindCode 0; mkChunk kindCode 0x1000])%N) as Hd
    by (vm_compute; reflexivity).
  destruct (func_flag_zero_selects_all sampleDecode _ false _ _ Hd)
    as (Hzero & Hone & _).
  split.
  - destruct (Hzero (Some 0%N) (or_introl eq_refl)) as (_ & Hall & _).
    apply Hall. repeat constructor.
  - apply (Hone 4096%positive).
Defined.

End Bin2llFacts.

Module X862goFacts.
Import X862go.

Lemma prefix_refl_app (m b : string) : String.prefix m (m +:+ b) = true.
Proof.
  induction m as [|c m IH]; simpl; [by destruct b|].
  destruct (Ascii.ascii_dec c c); [exact IH|congruence].
Qed.

Lemma contains_prefix (s t : string) :
  String.prefix t s = true → contains s t = true.
Proof. intros H. destruct s; cbn [contains]; by rewrite H. Qed.

Lemma contains_app (a m b : string) : contains (a +:+ m +:+ b) m = true.
Proof.
  induction a as [|c a IH].
  - change ("" +:+ m +:+ b) with (m +:+ b).
    apply contains_prefix, prefix_refl_app.
  - change (String c a +:+ m +:+ b) with (String c (a +:+ m +:+ b)).
    destruct (String.prefix m (String c (a +:+ m +:+ b))) eqn:E.
    + by apply contains_prefix.
    + cbn [contains]. rewrite E. exact IH.
Qed.

Section ParseInstFacts.
Variable getArg : Arg → Expr.

(** C9.  An integer PUSH or POP is elided: no statement, no error, and
    nothing is printed. *)
Theorem push_pop_elided (inst : Inst) :
  InstOp inst = PUSH ∨ InstOp inst = POP →
  parseInst getArg inst = mkResult [] None None.
Proof. intros [H|H]; unfold parseInst; by rewrite H. Qed.

(** C7 (as the code has it).  For an instruction whose mnemonic has no
    rule, [parseInst] returns no statement and an error whose message
    names the mnemonic; the message is made from the mnemonic alone. *)
Theorem unsupported_opcode_error (inst : Inst) :
  hasRule (InstOp inst) = false →
  stmt (parseInst getArg inst) = None ∧
  err (parseInst getArg inst) = Some (notImplemented (InstOp inst)) ∧
  contains (message (notImplemented (InstOp inst))) (Op_String (InstOp inst))
    = true ∧
  printed (parseInst getArg inst) = [inst].
Proof.
  intros H. unfold parseInst.
  destruct (InstOp inst) eqn:E; try discriminate.
  repeat split. apply contains_app.
Qed.

End ParseInstFacts.

Lemma push_pop_elided_witness :
  (InstOp (sampleInst PUSH) = PUSH ∨ InstOp (sampleInst PUSH) = POP) ∧
  parseInst sampleGetArg (sampleInst PUSH) = mkResult [] None None.
Proof.
  split; [left; reflexivity|].
  apply (push_pop_elided sampleGetArg (sampleInst PUSH)). left. reflexivity.
Defined.

Lemma unsupported_opcode_error_witness :
  hasRule (InstOp (sampleInst (OtherOp "ADD"))) = false ∧
  err (parseInst sampleGetArg (sampleInst (OtherOp "ADD"))) =
    Some (mkError "support for opcode ADD not yet implemented").
Proof.
  split; [reflexivity|].
  exact (proj1 (proj2 (unsupported_opcode_error sampleGetArg
                         (sampleInst (OtherOp "ADD")) eq_refl))).
Defined.

(** C7, refuted as stated: the error does not report the address of the
    instruction.  No reading of the error gives the address back for
    every address the instruction may have been decoded at, because the
    same instruction yields the same error wherever it stands. *)
Lemma error_does_not_report_address :
  err (parseInst sampleGetArg (sampleInst (OtherOp "ADD"))) =
    Some (mkError "support for opcode ADD not yet implemented") ∧
  ¬ ∃ addressOf : error → N,
      ∀ (a : N) (inst : Inst) (e : error),
        hasRule (InstOp inst) = false →
        err (parseInst sampleGetArg inst) = Some e →
        addressOf e = a.
Proof.
  split; [reflexivity|].
  intros [addressOf H].
  pose proof (H 0%N (sampleInst (OtherOp "ADD")) _ eq_refl eq_refl) as H0.
  pose proof (H 1%N (sampleInst (OtherOp "ADD")) _ eq_refl eq_refl) as H1.
  rewrite H0 in H1. discriminate.
Qed.

End X862goFacts.

Module LiftFacts.
Import Lift.

Lemma bind_assoc {A B C} (a : M A) (k1 : A → M B) (k2 : B → M C) (f : Func) :
  bind (bind a k1) k2 f = bind a (λ x, bind (k1 x) k2) f.
Proof. unfold bind. by destruct (a f). Qed.

Section NormalForm.
Variables (A : list BasicBlock) (c : BlockRef).
Hypothesis Hc : c < length A.

Lemma newBlock_nf g L Bs cu s fs l :
  newBlock (mkFunc (alter g c A ++ L) Bs cu s fs l) =
    (length A + length L,
     mkFunc (alter g c A ++ (L ++ [emptyBlock])) Bs cu s fs l).
Proof.
  unfold newBlock. cbn [arena Blocks cur st fpuStack nextLocal].
  by rewrite length_app, length_alter, <- app_assoc.
Qed.

Lemma updBlock_new_nf k h g L Bs cu s fs l :
  updBlock (length A + k) h (mkFunc (alter g c A ++ L) Bs cu s fs l) =
    (tt, mkFunc (alter g c A ++ alter h k L) Bs cu s fs l).
Proof.
  unfold updBlock. cbn [arena Blocks cur st fpuStack nextLocal].
  rewrite <- (length_alter g A c) at 1. by rewrite alter_app_r.
Qed.

Lemma updBlock_cur_nf h g L Bs cu s fs l :
  updBlock c h (mkFunc (alter g c A ++ L) Bs cu s fs l) =
    (tt, mkFunc (alter (h ∘ g) c A ++ L) Bs cu s fs l).
Proof.
  unfold updBlock. cbn [arena Blocks cur st fpuStack nextLocal].
  rewrite alter_app_l by (by rewrite length_alter).
  by rewrite list_alter_alter_eq.
Qed.

End NormalForm.

Section BindSteps.
Context {B : Type} (k : unit → M B).

Lemma bind_ret {X} (x : X) (k' : X → M B) f : bind (ret x) k' f = k' x f.
Proof. reflexivity. Qed.

Lemma bind_gets {X} (proj : Func → X) (k' : X → M B) f :
  bind (gets proj) k' f = k' (proj f) f.
Proof. reflexivity. Qed.

Lemma bind_freshLocal (k' : Local → M B) f :
  bind freshLocal k' f =
    k' (nextLocal f)
       (mkFunc (arena f) (Blocks f) (cur f) (st f) (fpuStack f)
               (S (nextLocal f))).
Proof. reflexivity. Qed.

Lemma bind_setCur b f :
  bind (setCur b) k f =
    k tt (mkFunc (arena f) (Blocks f) b (st f) (fpuStack f) (nextLocal f)).
Proof. reflexivity. Qed.

Lemma bind_AppendBlock b f :
  bind (AppendBlock b) k f =
    k tt (mkFunc (arena f) (Blocks f ++ [b]) (cur f) (st f) (fpuStack f)
                 (nextLocal f)).
Proof. reflexivity. Qed.

Variables (A : list BasicBlock) (c : BlockRef).
Hypothesis Hc : c < length A.

Lemma bind_newBlock_nf (k' : BlockRef → M B) g L Bs cu s fs l :
  bind newBlock k' (mkFunc (alter g c A ++ L) Bs cu s fs l) =
    k' (length A + length L)
       (mkFunc (alter g c A ++ (L ++ [emptyBlock])) Bs cu s fs l).
Proof. unfold bind. by rewrite newBlock_nf. Qed.

Lemma bind_updBlock_new_nf i h g L Bs cu s fs l :
  bind (updBlock (length A + i) h) k (mkFunc (alter g c A ++ L) Bs cu s fs l) =
    k tt (mkFunc (alter g c A ++ alter h i L) Bs cu s fs l).
Proof. unfold bind. by rewrite updBlock_new_nf. Qed.

Lemma bind_updBlock_cur_nf h g L Bs cu s fs l :
  bind (updBlock c h) k (mkFunc (alter g c A ++ L) Bs cu s fs l) =
    k tt (mkFunc (alter (h ∘ g) c A ++ L) Bs cu s fs l).
Proof. unfold bind. by rewrite (updBlock_cur_nf A c Hc). Qed.

End BindSteps.

Ltac nf_step Hc :=
  first [ rewrite bind_assoc
        | rewrite bind_ret
        | rewrite bind_gets
        | rewrite bind_freshLocal
        | rewrite bind_setCur
        | rewrite bind_AppendBlock
        | rewrite bind_newBlock_nf
        | rewrite bind_updBlock_new_nf
        | rewrite (bind_updBlock_cur_nf _ _ _ Hc) ];
  cbn [arena Blocks cur st fpuStack nextLocal length app alter list_alter].

Lemma fpush_shape src A Bs c s l c0 c1 c2 c3 c4 c5 c6 c7 :
  c < length A →
  let slots := [c0; c1; c2; c3; c4; c5; c6; c7] in
  let n := length A in
  fpush src (mkFunc A Bs c s slots l) =
    (tt, mkFunc (alter (fpushEntry l s n) c A ++ fpushNew src l s n slots)
                (Bs ++ fpushAppended n) (n + 3) s slots (S (S (S (S l))))).
Proof.
  intros Hc slots n. subst slots n.
  rewrite <- (app_nil_r A) at 1.
  rewrite <- (list_alter_id id A c) at 1 by done.
  unfold fpush, NewLoad, NewStore, NewICmp, NewSub, NewBr, NewCondBr,
    NewSwitch, NewUnreachable.
  repeat nf_step Hc.
  cbn [fpushCases]. unfold NewBr, NewStore.
  repeat nf_step Hc.
  unfold AppendBlock.
  cbn [arena Blocks cur st fpuStack nextLocal length app alter list_alter
       addInst setTerm emptyBlock Insts Term].
  rewrite Nat.add_0_r, <- !app_assoc.
  f_equal. f_equal. f_equal.
  apply list_alter_ext; [|done].
  intros blk _. unfold fpushEntry, compose, addInst, setTerm. simpl.
  by rewrite <- app_assoc.
Qed.


Lemma lookup_app_len {X} (xs ys : list X) k :
  (xs ++ ys) !! (length xs + k) = ys !! k.
Proof. by rewrite lookup_app_r, Nat.add_comm, Nat.add_sub by lia. Qed.

Lemma lookup_new {X} (g : X → X) c (A L : list X) k :
  (alter g c A ++ L) !! (length A + k) = L !! k.
Proof.
  rewrite lookup_app_r by (rewrite length_alter; lia).
  rewrite length_alter. f_equal. lia.
Qed.

Lemma list8 {X} (l : list X) :
  length l = 8 → ∃ c0 c1 c2 c3 c4 c5 c6 c7, l = [c0; c1; c2; c3; c4; c5; c6; c7].
Proof.
  intros H.
  do 8 (destruct l as [|? l]; [discriminate|]).
  destruct l; [|discriminate]. by repeat eexists.
Qed.

Lemma fpush_result src f :
  openCursor f →
  let n := length (arena f) in
  let l := nextLocal f in
  fpush src f =
    (tt, mkFunc (alter (fpushEntry l (st f) n) (cur f) (arena f) ++
                   fpushNew src l (st f) n (fpuStack f))
                (Blocks f ++ fpushAppended n) (n + 3) (st f) (fpuStack f)
                (S (S (S (S l))))).
Proof.
  intros [Hlen (blk & Hblk & _)]. destruct f as [A Bs c s slots l].
  cbn [arena Blocks cur st fpuStack nextLocal] in *.
  apply list8 in Hlen as (c0 & c1 & c2 & c3 & c4 & c5 & c6 & c7 & ->).
  apply fpush_shape. by apply lookup_lt_Some in Hblk.
Qed.

(** From here on [fpush] is used through [fpush_result] only. *)
Local Opaque fpush.

Lemma fpushNew_closed src l s n slots k blk :
  k ≠ 3 → fpushNew src l s n slots !! k = Some blk → Term blk ≠ None.
Proof.
  intros Hk. unfold fpushNew.
  destruct k as [|[|[|[|k]]]]; cbn [app lookup list_lookup];
    [by intros [= <-]..|done|].
  intros [H|[_ H]]%lookup_app_Some.
  - rewrite list_lookup_fmap in H.
    destruct (slots !! k); [|done]. by injection H as <-.
  - destruct (k - length (caseBlock src n <$> slots)) as [|?]; [|done].
    by injection H as <-.
Qed.

Lemma fpush_emitted src f blk0 :
  length (fpuStack f) = 8 →
  arena f !! cur f = Some blk0 → Term blk0 = None →
  emittedPush (arena (fpush src f).2) (cur f) blk0 src (nextLocal f) (st f)
              (length (arena f)) (fpuStack f).
Proof.
  intros Hlen Hblk Hopen.
  rewrite fpush_result by (split; eauto). cbn [snd arena].
  split.
  - rewrite lookup_app_l by (rewrite length_alter; by eapply lookup_lt_Some).
    by rewrite list_lookup_alter_eq, Hblk.
  - intros k blk _ Hk. by rewrite lookup_new.
Qed.

Lemma fpush_keeps_closed src f b blk :
  openCursor f →
  arena f !! b = Some blk → Term blk ≠ None →
  arena (fpush src f).2 !! b = Some blk.
Proof.
  intros Hf Hb Hclosed. pose proof Hf as [_ (blk0 & Hblk0 & Hopen)].
  rewrite fpush_result by done. cbn [snd arena].
  rewrite lookup_app_l by (rewrite length_alter; by eapply lookup_lt_Some).
  rewrite list_lookup_alter_ne; [done|].
  intros <-. congruence.
Qed.

Lemma fpush_cursor src f :
  openCursor f →
  let f' := (fpush src f).2 in
  cur f' = length (arena f) + 3 ∧
  arena f' !! cur f' = Some emptyBlock ∧
  st f' = st f ∧ fpuStack f' = fpuStack f ∧
  nextLocal f' = S (S (S (S (nextLocal f)))) ∧
  openCursor f'.
Proof.
  intros Hf f'. subst f'. pose proof Hf as [Hlen _].
  rewrite fpush_result by done. cbn [snd arena cur st fpuStack nextLocal].
  assert ((alter (fpushEntry (nextLocal f) (st f) (length (arena f))) (cur f)
             (arena f) ++
           fpushNew src (nextLocal f) (st f) (length (arena f)) (fpuStack f))
            !! (length (arena f) + 3) = Some emptyBlock) as Hend.
  { by rewrite lookup_new. }
  split; [exact eq_refl|]. split; [exact Hend|].
  split; [exact eq_refl|]. split; [exact eq_refl|]. split; [exact eq_refl|].
  split; [exact Hlen|]. exists emptyBlock. split; [exact Hend|exact eq_refl].
Qed.

Lemma emittedPush_mono P P' c blk0 src l s n slots :
  (∀ b blk, P !! b = Some blk → Term blk ≠ None → P' !! b = Some blk) →
  emittedPush P c blk0 src l s n slots →
  emittedPush P' c blk0 src l s n slots.
Proof.
  intros Hmono [Hc Hn]. split.
  - by apply Hmono.
  - intros k blk Hk Hlk. apply Hmono; [by apply Hn|].
    by eapply fpushNew_closed.
Qed.

Lemma pushAll_cons src srcs f :
  pushAll (src :: srcs) f = pushAll srcs (fpush src f).2.
Proof. unfold pushAll. cbn [foldl]. exact eq_refl. Qed.

Lemma pushAll_keeps_closed srcs f b blk :
  openCursor f →
  arena f !! b = Some blk → Term blk ≠ None →
  arena (pushAll srcs f) !! b = Some blk.
Proof.
  revert f. induction srcs as [|src srcs IH]; intros f Hf Hb Hclosed; [done|].
  rewrite pushAll_cons. apply IH.
  - by apply fpush_cursor.
  - by apply fpush_keeps_closed.
  - done.
Qed.

Lemma pushAll_cursor srcs f :
  openCursor f →
  let f' := pushAll srcs f in
  st f' = st f ∧ fpuStack f' = fpuStack f ∧
  (nextLocal f ≤ nextLocal f')%nat ∧ openCursor f' ∧
  (srcs ≠ [] → arena f' !! cur f' = Some emptyBlock).
Proof.
  revert f. induction srcs as [|src srcs IH]; intros f Hf.
  - cbn zeta. unfold pushAll. cbn [foldl].
    split; [exact eq_refl|]. split; [exact eq_refl|].
    split; [apply Nat.le_refl|]. split; [exact Hf|]. intros Hne. by destruct Hne.
  - rewrite pushAll_cons.
    destruct (fpush_cursor src f Hf) as (Hcur & Hend & Hst & Hfs & Hnl & Hf').
    destruct (IH _ Hf') as (Hst' & Hfs' & Hnl' & Hopen' & Hend').
    cbn zeta. rewrite Hst', Hfs', Hst, Hfs.
    split; [exact eq_refl|]. split; [exact eq_refl|].
    split; [rewrite Hnl in Hnl'; lia|]. split; [exact Hopen'|].
    intros _. destruct srcs as [|src' srcs].
    + unfold pushAll. cbn [foldl]. exact Hend.
    + apply Hend'. intros Hne. discriminate Hne.
Qed.

Section Exec.
Context {float : Type} (sitofp : Z → float).
Implicit Types (m : Machine float) (P : list BasicBlock).

Lemma stepn_S k P m :
  stepn sitofp (S k) P m =
    match step sitofp P m with
    | Next m' => stepn sitofp k P m'
    | _ => None
    end.
Proof. reflexivity. Qed.

Lemma step_inst P b i mm ee tr blk ins :
  P !! b = Some blk → Insts blk !! i = Some ins →
  step sitofp P (mkMachine b i mm ee tr) =
    execInst sitofp ins (mkMachine b i mm ee tr).
Proof. intros Hb Hi. unfold step. cbn [pcBlock pcIdx]. by rewrite Hb, Hi. Qed.

Lemma step_term P b i mm ee tr blk t :
  P !! b = Some blk → Insts blk !! i = None → Term blk = Some t →
  step sitofp P (mkMachine b i mm ee tr) =
    execTerm t (mkMachine b i mm ee tr).
Proof.
  intros Hb Hi Ht. unfold step. cbn [pcBlock pcIdx]. by rewrite Hb, Hi, Ht.
Qed.

Lemma entry_0 l s n blk0 :
  Insts (fpushEntry l s n blk0) !! length (Insts blk0) =
    Some (InstLoad l (Alloca s)).
Proof.
  unfold fpushEntry. cbn [Insts]. rewrite <- (Nat.add_0_r (length _)).
  by rewrite lookup_app_len.
Qed.

Lemma entry_1 l s n blk0 :
  Insts (fpushEntry l s n blk0) !! S (length (Insts blk0)) =
    Some (InstICmp (S l) IntEQ (LocalVal l) (ConstInt 0 I8)).
Proof.
  unfold fpushEntry. cbn [Insts]. rewrite <- Nat.add_1_r.
  by rewrite lookup_app_len.
Qed.

Lemma entry_2 l s n blk0 :
  Insts (fpushEntry l s n blk0) !! S (S (length (Insts blk0))) = None.
Proof.
  unfold fpushEntry. cbn [Insts].
  replace (S (S (length (Insts blk0)))) with (length (Insts blk0) + 2) by lia.
  by rewrite lookup_app_len.
Qed.

Lemma eval_insert_fresh (e : gmap Local (RVal float)) (l id : Local) x src :
  availableAt l src → (l ≤ id)%nat →
  eval (<[id := x]> e) src = eval e src.
Proof.
  destruct src as [| i |]; simpl; try done.
  unfold availableAt. intros Hi Hl. apply lookup_insert_ne. lia.
Qed.

Ltac env_simpl :=
  repeat first [ rewrite lookup_insert_eq
               | rewrite lookup_insert_ne by lia ].

Ltac zred :=
  repeat match goal with
         | |- context [wrap ?t ?z] =>
           let r := eval vm_compute in (wrap t z) in
           change (wrap t z) with r
         | |- context [Z.eqb ?a ?b] =>
           let r := eval vm_compute in (Z.eqb a b) in
           change (Z.eqb a b) with r
         | |- context [Z.sub ?a ?b] =>
           let r := eval vm_compute in (Z.sub a b) in
           change (Z.sub a b) with r
         end.

Ltac exec_step Hsrc :=
  rewrite stepn_S;
  lazymatch goal with
  | |- context [step _ ?P (mkMachine ?b ?i ?mm ?ee ?tr)] =>
    lazymatch goal with
    | H : P !! b = Some ?blk |- _ =>
      first
        [ erewrite (step_inst P b i mm ee tr blk _ H)
            by (first [apply entry_0 | apply entry_1 | reflexivity])
        | erewrite (step_term P b i mm ee tr blk _ H)
            by (first [apply entry_2 | reflexivity]) ]
    end
  end;
  cbn [execInst execTerm eval env mem pcBlock pcIdx trace];
  rewrite ?(eval_insert_fresh _ _ _ _ _ Hsrc) by lia;
  env_simpl;
  repeat match goal with
         | H : ?mm !! ?s = Some _ |- context [?mm !! ?s] => rewrite H
         | H : eval ?ee ?src = Some _ |- context [eval ?ee ?src] => rewrite H
         end;
  zred;
  cbn [setLocal jump Typ_eqb andb switchTarget fpushSwitchCases
       pcBlock pcIdx mem env trace];
  zred;
  cbn [andb switchTarget].

Ltac exec_done :=
  split;
  [ cbn [stepn]; rewrite <- !app_assoc; reflexivity
  | intros id Hid; env_simpl; reflexivity ].

Lemma push_exec P c blk0 src l s n c0 c1 c2 c3 c4 c5 c6 c7 mm ee tr p v :
  let slots := [c0; c1; c2; c3; c4; c5; c6; c7] in
  emittedPush P c blk0 src l s n slots →
  mm !! s = Some (RInt I8 p) → (0 ≤ p ≤ 7)%Z →
  eval ee src = Some v →
  availableAt l src →
  ∃ ee' slot,
    slots !! Z.to_nat (dec p) = Some slot ∧
    stepn sitofp (if (p =? 0)%Z then 9 else 10) P
          (mkMachine c (length (Insts blk0)) mm ee tr) =
      Some (mkMachine (n + 3) 0
              (<[slot := v]> (<[s := RInt I8 (dec p)]> mm)) ee'
              (tr ++ pushEvents s n p slot v)) ∧
    (∀ id : Local, (id < l)%nat → ee' !! id = ee !! id).
Proof.
  intros slots [Hc Hn] Hs Hp Hv Hsrc.
  pose proof (Hn 0 _ ltac:(done) eq_refl) as H0. rewrite Nat.add_0_r in H0.
  pose proof (Hn 1 _ ltac:(done) eq_refl) as H1.
  pose proof (Hn 2 _ ltac:(done) eq_refl) as H2.
  pose proof (Hn 4 _ ltac:(done) eq_refl) as H4.
  pose proof (Hn 5 _ ltac:(done) eq_refl) as H5.
  pose proof (Hn 6 _ ltac:(done) eq_refl) as H6.
  pose proof (Hn 7 _ ltac:(done) eq_refl) as H7.
  pose proof (Hn 8 _ ltac:(done) eq_refl) as H8.
  pose proof (Hn 9 _ ltac:(done) eq_refl) as H9.
  pose proof (Hn 10 _ ltac:(done) eq_refl) as H10.
  pose proof (Hn 11 _ ltac:(done) eq_refl) as H11.
  clear Hn.
  assert (p = 0 ∨ p = 1 ∨ p = 2 ∨ p = 3 ∨ p = 4 ∨ p = 5 ∨ p = 6 ∨ p = 7)%Z
    as Hcases by lia.
  clear Hp.
  destruct Hcases as [->|[->|[->|[->|[->|[->|[->| ->]]]]]]];
    (eexists _, _; split; [reflexivity|]); cbn [Z.eqb];
    [ do 9 exec_step Hsrc | do 10 exec_step Hsrc ..]; exec_done.
Qed.


Lemma stepn_add k1 k2 P m m1 :
  stepn sitofp k1 P m = Some m1 →
  stepn sitofp (k1 + k2) P m = stepn sitofp k2 P m1.
Proof.
  revert m. induction k1 as [|k1 IH]; intros m; cbn [stepn Nat.add].
  - by intros [= ->].
  - destruct (step sitofp P m); [apply IH|done..].
Qed.

Lemma run_stepn k fuel P m m1 :
  stepn sitofp k P m = Some m1 →
  run sitofp (k + fuel) P m = run sitofp fuel P m1.
Proof.
  revert m. induction k as [|k IH]; intros m; cbn [stepn run Nat.add].
  - by intros [= ->].
  - destruct (step sitofp P m); [apply IH|done..].
Qed.

Lemma step_open P m :
  P !! pcBlock m = Some emptyBlock → step sitofp P m = Halt.
Proof. intros H. unfold step. rewrite H. cbn. by destruct (pcIdx m). Qed.

(** Enough fuel gives the result: a state reached in [k] steps at an
    open, empty block is where every longer run ends. *)
Lemma run_reaches k P m m1 :
  stepn sitofp k P m = Some m1 →
  P !! pcBlock m1 = Some emptyBlock →
  ∀ fuel, (k < fuel)%nat → run sitofp fuel P m = Done m1.
Proof.
  intros Hk Hopen fuel Hfuel.
  replace fuel with (k + S (fuel - S k)) by lia.
  rewrite (run_stepn _ _ _ _ _ Hk). cbn [run]. by rewrite step_open.
Qed.

Lemma eval_agree (e e' : gmap Local (RVal float)) (l : Local) src :
  (∀ id : Local, (id < l)%nat → e' !! id = e !! id) →
  availableAt l src → eval e' src = eval e src.
Proof. destruct src; simpl; auto. Qed.

Lemma availableAt_mono (l l' : Local) src :
  (l ≤ l')%nat → availableAt l src → availableAt l' src.
Proof. destruct src; simpl; auto. unfold availableAt. lia. Qed.

Lemma dec_range p : (0 ≤ p ≤ 7)%Z → (0 ≤ dec p ≤ 7)%Z.
Proof. unfold dec. destruct (Z.eqb_spec p 0); lia. Qed.

Lemma slotCell_lookup (slots : list Cell) p slot :
  slots !! Z.to_nat p = Some slot → slotCell slots p = slot.
Proof. intros H. unfold slotCell. by apply nth_lookup_Some with (d := 0) in H. Qed.

Lemma slotCell_elem (slots : list Cell) p :
  length slots = 8 → (0 ≤ p ≤ 7)%Z → slotCell slots p ∈ slots.
Proof.
  intros Hlen Hp. unfold slotCell.
  destruct (nth_lookup_or_length slots (Z.to_nat p) 0) as [H|H]; [|lia].
  by eapply list_elem_of_lookup_2.
Qed.

Lemma storesOf_app (tr1 tr2 : list (Event float)) :
  storesOf (tr1 ++ tr2) = storesOf tr1 ++ storesOf tr2.
Proof. unfold storesOf. apply omap_app. Qed.

Lemma pushOnce_eq (s : Cell) (slots : list Cell) p
    (mm : gmap Cell (RVal float)) v :
  pushOnce s slots (p, mm) v =
    (dec p, <[slotCell slots (dec p) := v]> (<[s := RInt I8 (dec p)]> mm)).
Proof. reflexivity. Qed.

(** Consecutive pushes, run from the cursor of [f]: the emitted code
    does what [pushMany] says. *)
Lemma pushAll_exec srcs : ∀ vs f blk0 mm ee tr p,
  length (fpuStack f) = 8 → st f ∉ fpuStack f →
  arena f !! cur f = Some blk0 → Term blk0 = None →
  mm !! st f = Some (RInt I8 p) → (0 ≤ p ≤ 7)%Z →
  Forall2 (λ src v, eval ee src = Some v ∧ definedBefore f src) srcs vs →
  ∃ k ee' evs,
    (k ≤ 10 * length srcs)%nat ∧
    stepn sitofp k (arena (pushAll srcs f))
          (mkMachine (cur f) (length (Insts blk0)) mm ee tr) =
      Some (mkMachine (cur (pushAll srcs f))
              (if srcs is [] then length (Insts blk0) else 0)
              (pushMany (st f) (fpuStack f) (p, mm) vs).2 ee' (tr ++ evs)) ∧
    (pushMany (st f) (fpuStack f) (p, mm) vs).1 = decN (length srcs) p ∧
    storesOf evs = pushStores (st f) (fpuStack f) p (length srcs) ∧
    (∀ id : Local, (id < nextLocal f)%nat → ee' !! id = ee !! id).
Proof.
  induction srcs as [|src srcs IH];
    intros vs f blk0 mm ee tr p Hlen Hst Hblk Hopen Hp Hrange Hvs.
  - apply Forall2_nil_inv_l in Hvs as ->.
    exists 0, ee, []. rewrite app_nil_r.
    unfold pushAll, pushMany, decN.
    cbn [foldl stepn length pushStores Nat.iter fst snd].
    split; [lia|]. split; [exact eq_refl|]. split; [exact eq_refl|].
    split; [exact eq_refl|]. intros id _. exact eq_refl.
  - apply Forall2_cons_inv_l in Hvs as (v & vs' & [Hv Hsrc] & Hvs & ->).
    assert (openCursor f) as Hf by (split; [exact Hlen|by exists blk0]).
    pose proof (fpush_cursor src f Hf) as Hc1. cbn zeta in Hc1.
    pose proof (fpush_emitted src f blk0 Hlen Hblk Hopen) as Hem.
    rewrite pushAll_cons.
    revert Hc1 Hem. generalize ((fpush src f).2). intros f1 Hc1 Hem.
    destruct Hc1 as (Hcur & Hend & Hst1 & Hfs1 & Hnl1 & Hf1).
    apply (emittedPush_mono _ (arena (pushAll srcs f1))) in Hem;
      [|intros b blk Hb Hcl; by apply pushAll_keeps_closed].
    destruct (list8 _ Hlen) as (c0 & c1 & c2 & c3 & c4 & c5 & c6 & c7 & Hslots).
    rewrite Hslots in Hem.
    destruct (push_exec _ _ _ _ _ _ _ _ _ _ _ _ _ _ _ mm ee tr p v
                Hem Hp Hrange Hv Hsrc) as (ee1 & slot & Hslot & Hstep & Hee1).
    rewrite <- Hslots in Hslot. apply slotCell_lookup in Hslot.
    assert (slot ∈ fpuStack f) as Hin
      by (rewrite <- Hslot; apply slotCell_elem; [done|by apply dec_range]).
    assert (slot ≠ st f) as Hne by (intros ->; by apply Hst).
    destruct (IH vs' f1 emptyBlock
                (<[slot := v]> (<[st f := RInt I8 (dec p)]> mm)) ee1
                (tr ++ pushEvents (st f) (length (arena f)) p slot v) (dec p))
      as (k & ee' & evs & Hk & Hsteps & Hptr & Hstores & Hee').
    + by rewrite Hfs1.
    + by rewrite Hst1, Hfs1.
    + exact Hend.
    + exact eq_refl.
    + rewrite Hst1, lookup_insert_ne by exact Hne.
      apply lookup_insert_eq.
    + by apply dec_range.
    + eapply Forall2_impl; [exact Hvs|].
      intros src' v' [Hv' Hsrc']. split.
      * rewrite <- Hv'. by apply (eval_agree _ _ (nextLocal f)).
      * unfold definedBefore in *. rewrite Hnl1.
        eapply availableAt_mono; [|exact Hsrc']. lia.
    + exists ((if (p =? 0)%Z then 9 else 10) + k), ee',
        (pushEvents (st f) (length (arena f)) p slot v ++ evs).
      split; [cbn [length]; destruct (p =? 0)%Z; lia|].
      split.
      { rewrite (stepn_add _ _ _ _ _ Hstep). rewrite <- Hcur.
        cbn [Insts emptyBlock length] in Hsteps.
        rewrite Hsteps, Hst1, Hfs1. unfold pushMany.
        cbn [foldl]. rewrite pushOnce_eq, Hslot, app_assoc.
        destruct srcs; exact eq_refl. }
      split; [|split].
      { rewrite Hst1, Hfs1 in Hptr. unfold pushMany in *.
        cbn [foldl]. rewrite pushOnce_eq, Hslot, Hptr. cbn [length].
        unfold decN. by rewrite <- Nat.iter_succ_r. }
      { rewrite storesOf_app, Hstores, Hst1, Hfs1. cbn [length pushStores].
        rewrite Hslot. exact eq_refl. }
      { intros id Hid. rewrite Hee' by (rewrite Hnl1; lia). by apply Hee1. }
Qed.

(** One push, run from the cursor of [f]. *)
Lemma fpush_steps src f blk0 mm ee tr p v :
  length (fpuStack f) = 8 →
  arena f !! cur f = Some blk0 → Term blk0 = None →
  mm !! st f = Some (RInt I8 p) → (0 ≤ p ≤ 7)%Z →
  eval ee src = Some v → definedBefore f src →
  ∃ ee',
    stepn sitofp (if (p =? 0)%Z then 9 else 10) (arena (fpush src f).2)
          (mkMachine (cur f) (length (Insts blk0)) mm ee tr) =
      Some (mkMachine (cur (fpush src f).2) 0
              (<[slotCell (fpuStack f) (dec p) := v]>
                 (<[st f := RInt I8 (dec p)]> mm)) ee'
              (tr ++ pushEvents (st f) (length (arena f)) p
                       (slotCell (fpuStack f) (dec p)) v)) ∧
    arena (fpush src f).2 !! cur (fpush src f).2 = Some emptyBlock ∧
    (∀ id : Local, (id < nextLocal f)%nat → ee' !! id = ee !! id).
Proof.
  intros Hlen Hblk Hopen Hp Hrange Hv Hsrc.
  assert (openCursor f) as Hf by (split; [exact Hlen|by exists blk0]).
  pose proof (fpush_cursor src f Hf) as Hc1. cbn zeta in Hc1.
  pose proof (fpush_emitted src f blk0 Hlen Hblk Hopen) as Hem.
  revert Hc1 Hem. generalize ((fpush src f).2). intros f1 Hc1 Hem.
  destruct Hc1 as (Hcur & Hend & _).
  destruct (list8 _ Hlen) as (c0 & c1 & c2 & c3 & c4 & c5 & c6 & c7 & Hslots).
  rewrite Hslots in Hem.
  destruct (push_exec _ _ _ _ _ _ _ _ _ _ _ _ _ _ _ mm ee tr p v
              Hem Hp Hrange Hv Hsrc) as (ee1 & slot' & Hslot & Hstep & Hee1).
  rewrite <- Hslots in Hslot. apply slotCell_lookup in Hslot.
  exists ee1. rewrite Hstep, Hslot, <- Hcur.
  split; [exact eq_refl|]. split; [exact Hend|exact Hee1].
Qed.

Lemma pushEvents_stores (s : Cell) n p slot (v : RVal float) :
  storesOf (pushEvents s n p slot v) = [s; slot].
Proof. reflexivity. Qed.

Lemma pushEvents_entered (s : Cell) n p slot (v : RVal float) :
  entered (pushEvents s n p slot v) =
    [if (p =? 0)%Z then n else n + 1; n + 2; n + (4 + Z.to_nat (dec p)); n + 3].
Proof. reflexivity. Qed.

Lemma slotCell_inj (slots : list Cell) p q :
  NoDup slots → length slots = 8 → (0 ≤ p ≤ 7)%Z → (0 ≤ q ≤ 7)%Z →
  slotCell slots p = slotCell slots q → p = q.
Proof.
  intros Hnd Hlen Hp Hq Heq. unfold slotCell in Heq.
  destruct (nth_lookup_or_length slots (Z.to_nat p) 0) as [H1|H1]; [|lia].
  destruct (nth_lookup_or_length slots (Z.to_nat q) 0) as [H2|H2]; [|lia].
  rewrite Heq in H1.
  pose proof (NoDup_lookup _ _ _ _ Hnd H1 H2). lia.
Qed.

Lemma dec_neq p : (0 ≤ p ≤ 7)%Z → dec p ≠ p.
Proof. unfold dec. destruct (Z.eqb_spec p 0); lia. Qed.

Lemma decN_8 p : (0 ≤ p ≤ 7)%Z → decN 8 p = p.
Proof.
  intros Hp.
  assert (p = 0 ∨ p = 1 ∨ p = 2 ∨ p = 3 ∨ p = 4 ∨ p = 5 ∨ p = 6 ∨ p = 7)%Z
    as Hcases by lia.
  destruct Hcases as [->|[->|[->|[->|[->|[->|[->| ->]]]]]]]; reflexivity.
Qed.

Lemma pushMany_pointer (s : Cell) (slots : list Cell)
    (vs : list (RVal float)) : ∀ p (mm : gmap Cell (RVal float)),
  length slots = 8 → s ∉ slots →
  mm !! s = Some (RInt I8 p) → (0 ≤ p ≤ 7)%Z →
  (pushMany s slots (p, mm) vs).2 !! s =
    Some (RInt I8 (pushMany s slots (p, mm) vs).1).
Proof.
  induction vs as [|v vs IH]; intros p mm Hlen Hs Hp Hrange; [done|].
  cbn [pushMany foldl]. apply IH; try done; cbn [pushOnce fst snd].
  - rewrite lookup_insert_ne, lookup_insert_eq; [done|].
    intros Heq. apply Hs. rewrite <- Heq.
    apply slotCell_elem; [done|by apply dec_range].
  - by apply dec_range.
Qed.

Lemma slot_stores_of_pushes (s : Cell) (slots : list Cell) k : ∀ p,
  length slots = 8 → s ∉ slots → (0 ≤ p ≤ 7)%Z →
  filter (λ c, c ∈ slots) (pushStores s slots p k) =
    (λ j, slotCell slots (decN j p)) <$> seq 1 k.
Proof.
  induction k as [|k IH]; intros p Hlen Hs Hp; [done|].
  cbn [pushStores seq fmap list_fmap].
  rewrite filter_cons_False by done.
  rewrite filter_cons_True by (apply slotCell_elem; [done|by apply dec_range]).
  f_equal. rewrite IH by (try done; by apply dec_range).
  rewrite <- (fmap_S_seq 1), <- list_fmap_compose.
  apply list_fmap_ext. intros _ j _. cbn [compose].
  unfold decN. by rewrite Nat.iter_succ_r.
Qed.

Lemma pushOrder_8 (slots : list Cell) p :
  length slots = 8 → (0 ≤ p ≤ 7)%Z →
  (λ j, slotCell slots (decN j p)) <$> seq 1 8 = pushOrder slots p.
Proof.
  intros Hlen Hp.
  destruct (list8 _ Hlen) as (c0 & c1 & c2 & c3 & c4 & c5 & c6 & c7 & ->).
  assert (p = 0 ∨ p = 1 ∨ p = 2 ∨ p = 3 ∨ p = 4 ∨ p = 5 ∨ p = 6 ∨ p = 7)%Z
    as Hcases by lia.
  destruct Hcases as [->|[->|[->|[->|[->|[->|[->| ->]]]]]]]; reflexivity.
Qed.

Lemma pushOrder_Permutation (slots : list Cell) p :
  pushOrder slots p ≡ₚ slots.
Proof.
  unfold pushOrder. rewrite !reverse_Permutation. by rewrite take_drop.
Qed.


Lemma fpushNew_case src l s n (slots : list Cell) i slot :
  slots !! i = Some slot →
  fpushNew src l s n slots !! (4 + i) = Some (caseBlock src n slot).
Proof.
  intros Hi. unfold fpushNew. cbn [app Nat.add lookup list_lookup].
  apply lookup_app_l_Some. by rewrite list_lookup_fmap, Hi.
Qed.

(** C2.  The push primitive computes the new pointer
    [dec p = if p = 0 then 7 else p - 1] with a two-way branch: the
    current block ends in a compare with 0 and a conditional branch, the
    true arm stores 7 in the pointer cell, the false arm stores [p - 1]
    (a subtraction, no modulo), and both arms branch to the one follow
    block.  Run from any pointer [p] in [0,7], the code ends with
    [dec p] in the pointer cell and the pushed value in slot [dec p]. *)
Theorem fpush_decrements_pointer src f blk0 (m : Machine float) p v :
  length (fpuStack f) = 8 → st f ∉ fpuStack f →
  arena f !! cur f = Some blk0 → Term blk0 = None →
  pcBlock m = cur f → pcIdx m = length (Insts blk0) →
  mem m !! st f = Some (RInt I8 p) → (0 ≤ p ≤ 7)%Z →
  eval (env m) src = Some v → definedBefore f src →
  let P := arena (fpush src f).2 in
  let n := length (arena f) in
  let l := nextLocal f in
  P !! cur f =
    Some (mkBlock (Insts blk0 ++
                     [InstLoad l (Alloca (st f));
                      InstICmp (S l) IntEQ (LocalVal l) (ConstInt 0 I8)])
                  (Some (TermCondBr (LocalVal (S l)) n (n + 1)))) ∧
  P !! n =
    Some (mkBlock [InstStore (ConstInt 7 I8) (Alloca (st f))]
                  (Some (TermBr (n + 2)))) ∧
  P !! (n + 1) =
    Some (mkBlock [InstSub (S (S l)) (LocalVal l) (ConstInt 1 I8);
                   InstStore (LocalVal (S (S l))) (Alloca (st f))]
                  (Some (TermBr (n + 2)))) ∧
  ∃ m', (∀ fuel, (10 < fuel)%nat → run sitofp fuel P m = Done m') ∧
    mem m' !! st f = Some (RInt I8 (dec p)) ∧
    mem m' !! slotCell (fpuStack f) (dec p) = Some v ∧
    ∃ evs, trace m' = trace m ++ evs ∧
      storesOf evs = [st f; slotCell (fpuStack f) (dec p)] ∧
      entered evs = [if (p =? 0)%Z then n else n + 1; n + 2;
                     n + (4 + Z.to_nat (dec p)); n + 3].
Proof.
  intros Hlen Hst Hblk Hopen Hpc Hidx Hp Hrange Hv Hsrc.
  destruct m as [pb pi mm ee tr]. cbn [pcBlock pcIdx mem env trace] in *.
  subst pb pi.
  destruct (fpush_emitted src f blk0 Hlen Hblk Hopen) as [Hc Hn].
  destruct (fpush_steps src f blk0 mm ee tr p v Hlen Hblk Hopen Hp Hrange
              Hv Hsrc) as (ee' & Hsteps & Hend & _).
  pose proof (Hn 0 _ ltac:(done) eq_refl) as H0. rewrite Nat.add_0_r in H0.
  pose proof (Hn 1 _ ltac:(done) eq_refl) as H1.
  revert Hc H0 H1 Hsteps Hend. generalize ((fpush src f).2).
  intros f1 Hc H0 H1 Hsteps Hend. cbn zeta.
  split; [exact Hc|]. split; [exact H0|]. split; [exact H1|].
  eexists. split.
  { intros fuel Hfuel. eapply run_reaches; [exact Hsteps|exact Hend|].
    destruct (p =? 0)%Z; lia. }
  cbn [mem trace].
  assert (slotCell (fpuStack f) (dec p) ≠ st f) as Hne.
  { intros Heq. apply Hst. rewrite <- Heq.
    apply slotCell_elem; [exact Hlen|by apply dec_range]. }
  split; [by rewrite lookup_insert_ne, lookup_insert_eq|].
  split; [by rewrite lookup_insert_eq|].
  eexists. split; [reflexivity|]. split; reflexivity.
Qed.

(** C3.  The push primitive stores the value through a switch on the
    new pointer: the follow block loads the pointer and switches on it
    with one case per index 0..7; case [i] branches to a block that
    stores the value in slot [i] and branches to the join block, where
    emission continues; the default target is a block that is only
    [unreachable].  Run with a pointer in [0,7], the code reaches the
    join block without entering the default block. *)
Theorem fpush_switch_dispatch src f blk0 (m : Machine float) p v :
  length (fpuStack f) = 8 → st f ∉ fpuStack f →
  arena f !! cur f = Some blk0 → Term blk0 = None →
  pcBlock m = cur f → pcIdx m = length (Insts blk0) →
  mem m !! st f = Some (RInt I8 p) → (0 ≤ p ≤ 7)%Z →
  eval (env m) src = Some v → definedBefore f src →
  let P := arena (fpush src f).2 in
  let n := length (arena f) in
  let l := nextLocal f in
  P !! (n + 2) =
    Some (mkBlock [InstLoad (S (S (S l))) (Alloca (st f))]
            (Some (TermSwitch (LocalVal (S (S (S l)))) (n + 12)
                     [(ConstInt 0 I8, n + 4); (ConstInt 1 I8, n + 5);
                      (ConstInt 2 I8, n + 6); (ConstInt 3 I8, n + 7);
                      (ConstInt 4 I8, n + 8); (ConstInt 5 I8, n + 9);
                      (ConstInt 6 I8, n + 10); (ConstInt 7 I8, n + 11)]))) ∧
  (∀ i slot, fpuStack f !! i = Some slot →
     P !! (n + (4 + i)) =
       Some (mkBlock [InstStore src (Alloca slot)] (Some (TermBr (n + 3))))) ∧
  P !! (n + 12) = Some (mkBlock [] (Some TermUnreachable)) ∧
  cur (fpush src f).2 = n + 3 ∧
  P !! (n + 3) = Some (mkBlock [] None) ∧
  ∃ m', (∀ fuel, (10 < fuel)%nat → run sitofp fuel P m = Done m') ∧
    pcBlock m' = n + 3 ∧
    mem m' !! slotCell (fpuStack f) (dec p) = Some v ∧
    ∃ evs, trace m' = trace m ++ evs ∧
      ((n + 12) ∉ entered evs) ∧
      ((n + (4 + Z.to_nat (dec p))) ∈ entered evs).
Proof.
  intros Hlen Hst Hblk Hopen Hpc Hidx Hp Hrange Hv Hsrc.
  destruct m as [pb pi mm ee tr]. cbn [pcBlock pcIdx mem env trace] in *.
  subst pb pi.
  assert (openCursor f) as Hf by (split; [exact Hlen|by exists blk0]).
  destruct (fpush_emitted src f blk0 Hlen Hblk Hopen) as [Hc Hn].
  destruct (fpush_steps src f blk0 mm ee tr p v Hlen Hblk Hopen Hp Hrange
              Hv Hsrc) as (ee' & Hsteps & Hend & _).
  pose proof (fpush_cursor src f Hf) as Hc1. cbn zeta in Hc1.
  destruct Hc1 as (Hcur & _).
  pose proof (Hn 2 _ ltac:(done) eq_refl) as H2.
  assert (∀ i slot, fpuStack f !! i = Some slot →
            arena (fpush src f).2 !! (length (arena f) + (4 + i)) =
              Some (caseBlock src (length (arena f)) slot)) as Hcase.
  { intros i slot Hi. apply Hn; [lia|]. by apply fpushNew_case. }
  assert (arena (fpush src f).2 !! (length (arena f) + 12) =
            Some (mkBlock [] (Some TermUnreachable))) as H12.
  { apply Hn; [lia|].
    destruct (list8 _ Hlen)
      as (c0 & c1 & c2 & c3 & c4 & c5 & c6 & c7 & ->). reflexivity. }
  revert H2 Hcase H12 Hsteps Hend Hcur. generalize ((fpush src f).2).
  intros f1 H2 Hcase H12 Hsteps Hend Hcur. cbn zeta.
  split; [exact H2|]. split; [exact Hcase|]. split; [exact H12|].
  split; [exact Hcur|]. split; [by rewrite <- Hcur|].
  eexists. split.
  { intros fuel Hfuel. eapply run_reaches; [exact Hsteps|exact Hend|].
    destruct (p =? 0)%Z; lia. }
  cbn [pcBlock mem trace].
  split; [exact Hcur|]. split; [by rewrite lookup_insert_eq|].
  eexists. split; [reflexivity|].
  rewrite pushEvents_entered.
  assert (0 ≤ dec p ≤ 7)%Z as Hd by (by apply dec_range).
  split.
  - rewrite !not_elem_of_cons. repeat split; try lia; [|apply not_elem_of_nil].
    destruct (p =? 0)%Z; lia.
  - do 2 right. left.
Qed.


(** C1.  One push leaves the slot of the previous top as it was, writes
    exactly one slot, the new top, and that slot holds the pushed value
    (every other slot is unchanged, so if no slot held the value before,
    the new top is the only one that holds it).  Eight consecutive
    pushes, from any pointer in [0,7], bring the pointer back to its
    value and write each of the eight slots exactly once, in the order
    [p - 1], ..., 0, 7, ..., [p]. *)
Theorem eight_pushes_wrap_around src srcs f blk0 (m : Machine float) p v vs :
  length (fpuStack f) = 8 → NoDup (st f :: fpuStack f) →
  arena f !! cur f = Some blk0 → Term blk0 = None →
  pcBlock m = cur f → pcIdx m = length (Insts blk0) →
  mem m !! st f = Some (RInt I8 p) → (0 ≤ p ≤ 7)%Z →
  eval (env m) src = Some v → definedBefore f src →
  length srcs = 8 →
  Forall2 (λ src v, eval (env m) src = Some v ∧ definedBefore f src) srcs vs →
  (∃ m1,
     (∀ fuel, (10 < fuel)%nat →
        run sitofp fuel (arena (fpush src f).2) m = Done m1) ∧
     mem m1 !! slotCell (fpuStack f) p = mem m !! slotCell (fpuStack f) p ∧
     mem m1 !! slotCell (fpuStack f) (dec p) = Some v ∧
     (∀ c, c ∈ fpuStack f → c ≠ slotCell (fpuStack f) (dec p) →
           mem m1 !! c = mem m !! c) ∧
     ((∀ c, c ∈ fpuStack f → mem m !! c ≠ Some v) →
      ∀ c, c ∈ fpuStack f →
           mem m1 !! c = Some v ↔ c = slotCell (fpuStack f) (dec p)) ∧
     ∃ evs, trace m1 = trace m ++ evs ∧
       slotStores f evs = [slotCell (fpuStack f) (dec p)]) ∧
  (∃ m8,
     (∀ fuel, (80 < fuel)%nat →
        run sitofp fuel (arena (pushAll srcs f)) m = Done m8) ∧
     mem m8 !! st f = Some (RInt I8 p) ∧
     ∃ evs, trace m8 = trace m ++ evs ∧
       slotStores f evs = pushOrder (fpuStack f) p ∧
       slotStores f evs ≡ₚ fpuStack f ∧
       NoDup (slotStores f evs)).
Proof.
  intros Hlen Hnd Hblk Hopen Hpc Hidx Hp Hrange Hv Hsrc Hlen8 Hvs.
  apply NoDup_cons in Hnd as [Hst Hnd].
  destruct m as [pb pi mm ee tr]. cbn [pcBlock pcIdx mem env trace] in *.
  subst pb pi.
  assert (0 ≤ dec p ≤ 7)%Z as Hd by (by apply dec_range).
  assert (slotCell (fpuStack f) (dec p) ∈ fpuStack f) as Hin
    by (by apply slotCell_elem).
  assert (slotCell (fpuStack f) (dec p) ≠ st f) as Hne
    by (intros Heq; apply Hst; by rewrite <- Heq).
  split.
  - destruct (fpush_steps src f blk0 mm ee tr p v Hlen Hblk Hopen Hp Hrange
                Hv Hsrc) as (ee' & Hsteps & Hend & _).
    revert Hsteps Hend. generalize ((fpush src f).2). intros f1 Hsteps Hend.
    eexists. split.
    { intros fuel Hfuel. eapply run_reaches; [exact Hsteps|exact Hend|].
      destruct (p =? 0)%Z; lia. }
    cbn [mem trace].
    assert (∀ c, c ∈ fpuStack f → c ≠ slotCell (fpuStack f) (dec p) →
              <[slotCell (fpuStack f) (dec p) := v]>
                (<[st f := RInt I8 (dec p)]> mm) !! c = mm !! c) as Hframe.
    { intros c Hc Hcne.
      rewrite !lookup_insert_ne; [done| |by apply not_eq_sym].
      intros <-. by apply Hst. }
    split.
    { apply Hframe; [by apply slotCell_elem|].
      intros Heq. apply slotCell_inj in Heq; try done.
      by apply (dec_neq p). }
    split; [by rewrite lookup_insert_eq|].
    split; [exact Hframe|].
    split.
    { intros Hfresh c Hc. split.
      - intros Hcv. destruct (decide (c = slotCell (fpuStack f) (dec p)))
          as [|Hcne]; [done|].
        rewrite Hframe in Hcv by done. by apply Hfresh in Hcv.
      - intros ->. by rewrite lookup_insert_eq. }
    eexists. split; [reflexivity|].
    unfold slotStores. rewrite pushEvents_stores.
    rewrite filter_cons_False by done.
    by rewrite filter_cons_True by done.
  - destruct (pushAll_exec srcs vs f blk0 mm ee tr p Hlen Hst Hblk Hopen Hp
                Hrange Hvs)
      as (k & ee' & evs & Hk & Hsteps & Hptr & Hstores & _).
    assert (openCursor f) as Hf by (split; [exact Hlen|by exists blk0]).
    destruct (pushAll_cursor srcs f Hf) as (_ & _ & _ & _ & Hend).
    assert (srcs ≠ []) as Hsrcs by (intros ->; discriminate Hlen8).
    specialize (Hend Hsrcs).
    rewrite Hlen8 in Hk, Hptr, Hstores.
    eexists. split.
    { intros fuel Hfuel. eapply run_reaches; [exact Hsteps|exact Hend|lia]. }
    cbn [mem trace]. split.
    { rewrite pushMany_pointer by done. rewrite Hptr. by rewrite decN_8. }
    exists evs. split; [reflexivity|].
    assert (slotStores f evs = pushOrder (fpuStack f) p) as Horder.
    { unfold slotStores. rewrite Hstores.
      rewrite slot_stores_of_pushes by done. by apply pushOrder_8. }
    split; [exact Horder|]. rewrite Horder.
    split; [apply pushOrder_Permutation|].
    by rewrite pushOrder_Permutation.
Qed.


End Exec.

Section FILDFacts.
Context {float : Type} (sitofp : Z → float).
Context {X86Inst X86Arg : Type}.
Variable Inst_Arg : X86Inst → nat → X86Arg.
Variable useArg : X86Arg → M Value.

Lemma liftInstFILD_eq inst f arg f1 :
  useArg (Inst_Arg inst 0) f = (arg, f1) →
  liftInstFILD X86Inst X86Arg Inst_Arg useArg inst f =
    (None,
     (fpush (LocalVal (nextLocal f1))
            (mkFunc (alter (addInst (InstSIToFP (nextLocal f1) arg X86_FP80))
                           (cur f1) (arena f1))
                    (Blocks f1) (cur f1) (st f1) (fpuStack f1)
                    (S (nextLocal f1)))).2).
Proof.
  intros Huse. unfold liftInstFILD, NewSIToFP.
  unfold bind at 1. rewrite Huse.
  rewrite bind_gets, bind_assoc, bind_freshLocal, bind_assoc.
  unfold bind at 1. unfold updBlock at 1.
  cbn [arena Blocks cur st fpuStack nextLocal].
  rewrite bind_ret. unfold bind, ret.
  by destruct (fpush _ _) as [[] f2].
Qed.

Lemma liftInstFILD_fst inst f arg f1 :
  useArg (Inst_Arg inst 0) f = (arg, f1) →
  (liftInstFILD X86Inst X86Arg Inst_Arg useArg inst f).1 = None.
Proof. intros Huse. rewrite (liftInstFILD_eq _ _ _ _ Huse). exact eq_refl. Qed.

Lemma pair_snd (r : unit * Func) : ((None : option string), r.2).2 = r.2.
Proof. exact eq_refl. Qed.

Lemma liftInstFILD_snd inst f arg f1 :
  useArg (Inst_Arg inst 0) f = (arg, f1) →
  (liftInstFILD X86Inst X86Arg Inst_Arg useArg inst f).2 =
    (fpush (LocalVal (nextLocal f1))
           (mkFunc (alter (addInst (InstSIToFP (nextLocal f1) arg X86_FP80))
                          (cur f1) (arena f1))
                   (Blocks f1) (cur f1) (st f1) (fpuStack f1)
                   (S (nextLocal f1)))).2.
Proof.
  intros Huse.
  exact (eq_trans (f_equal snd (liftInstFILD_eq _ _ _ _ Huse)) (pair_snd _)).
Qed.

(** The conversion instruction followed by the push, run from the
    cursor of [f1]; [f2] is [f1] after the conversion was emitted. *)
Lemma fild_run f1 f2 blk1 arg t a p (mm : gmap Cell (RVal float)) ee tr :
  let cvt := InstSIToFP (nextLocal f1) arg X86_FP80 in
  let fv := RFloat (sitofp (signed t a)) in
  arena f2 = alter (addInst cvt) (cur f1) (arena f1) →
  cur f2 = cur f1 → st f2 = st f1 → fpuStack f2 = fpuStack f1 →
  nextLocal f2 = S (nextLocal f1) →
  length (fpuStack f1) = 8 →
  arena f1 !! cur f1 = Some blk1 → Term blk1 = None →
  eval ee arg = Some (RInt t a) →
  mm !! st f1 = Some (RInt I8 p) → (0 ≤ p ≤ 7)%Z →
  let P := arena (fpush (LocalVal (nextLocal f1)) f2).2 in
  (∃ blk, P !! cur f1 = Some blk ∧
     Insts blk !! length (Insts blk1) = Some cvt) ∧
  ∃ m', (∀ fuel, (11 < fuel)%nat →
           run sitofp fuel P
               (mkMachine (cur f1) (length (Insts blk1)) mm ee tr) = Done m') ∧
    mem m' = <[slotCell (fpuStack f1) (dec p) := fv]>
               (<[st f1 := RInt I8 (dec p)]> mm).
Proof.
  intros cvt fv Ha Hcu Hs Hfs Hnl Hlen Hblk Hopen Harg Hp Hrange.
  assert (arena f2 !! cur f2 = Some (addInst cvt blk1)) as Hblk2
    by (by rewrite Ha, Hcu, list_lookup_alter_eq, Hblk).
  assert (eval (<[nextLocal f1 := fv]> ee) (LocalVal (nextLocal f1)) = Some fv)
    as Hv by apply lookup_insert_eq.
  assert (definedBefore f2 (LocalVal (nextLocal f1))) as Hsrc
    by (unfold definedBefore, availableAt; rewrite Hnl; lia).
  assert (length (fpuStack f2) = 8) as Hlen2 by (by rewrite Hfs).
  assert (mm !! st f2 = Some (RInt I8 p)) as Hp2 by (by rewrite Hs).
  destruct (fpush_emitted (LocalVal (nextLocal f1)) f2 _ Hlen2 Hblk2 Hopen)
    as [Hc _].
  destruct (fpush_steps sitofp (LocalVal (nextLocal f1)) f2 _ mm
              (<[nextLocal f1 := fv]> ee) tr p fv Hlen2 Hblk2 Hopen Hp2
              Hrange Hv Hsrc) as (ee' & Hsteps & Hend & _).
  cbn zeta.
  revert Hc Hsteps Hend. generalize ((fpush (LocalVal (nextLocal f1)) f2).2).
  intros f3 Hc Hsteps Hend. rewrite Hcu, Hs, Hfs in *.
  assert (Insts (fpushEntry (nextLocal f2) (st f1) (length (arena f2))
                   (addInst cvt blk1)) !! length (Insts blk1) = Some cvt)
    as Hcvt.
  { unfold fpushEntry, addInst. cbn [Insts]. rewrite <- app_assoc.
    rewrite <- (Nat.add_0_r (length (Insts blk1))).
    by rewrite lookup_app_len. }
  split.
  { eexists. split; [exact Hc|exact Hcvt]. }
  assert (step sitofp (arena f3)
            (mkMachine (cur f1) (length (Insts blk1)) mm ee tr)
          = Next (mkMachine (cur f1) (S (length (Insts blk1))) mm
                    (<[nextLocal f1 := fv]> ee) tr)) as Hstep1.
  { rewrite (step_inst sitofp _ _ _ _ _ _ _ _ Hc Hcvt).
    unfold cvt. cbn [execInst env]. rewrite Harg. exact eq_refl. }
  assert (length (Insts (addInst cvt blk1)) = S (length (Insts blk1))) as Hl
    by (unfold addInst; cbn [Insts]; rewrite length_app; cbn [length]; lia).
  rewrite Hl in Hsteps.
  eexists. split.
  - intros fuel Hfuel.
    eapply (run_reaches sitofp (S (if (p =? 0)%Z then 9 else 10)));
      [rewrite stepn_S, Hstep1; exact Hsteps
      |exact Hend|destruct (p =? 0)%Z; lia].
  - exact eq_refl.
Qed.

(** C8.  Lifting FILD emits, after the code that reads the operand, a
    signed-integer-to-floating-point conversion of the operand to the
    extended-precision type and a push of the converted value, and
    returns no error: run with the operand holding the integer [a] of
    type [t], the code ends with the new top slot holding the
    conversion of the signed value of [a] and the pointer decremented. *)
Theorem liftInstFILD_converts_and_pushes inst f arg f1 blk1
    (m : Machine float) t a p :
  useArg (Inst_Arg inst 0) f = (arg, f1) →
  length (fpuStack f1) = 8 →
  arena f1 !! cur f1 = Some blk1 → Term blk1 = None →
  pcBlock m = cur f1 → pcIdx m = length (Insts blk1) →
  eval (env m) arg = Some (RInt t a) →
  mem m !! st f1 = Some (RInt I8 p) → (0 ≤ p ≤ 7)%Z →
  (liftInstFILD X86Inst X86Arg Inst_Arg useArg inst f).1 = None ∧
  (∃ blk,
     arena (liftInstFILD X86Inst X86Arg Inst_Arg useArg inst f).2 !! cur f1
       = Some blk ∧
     Insts blk !! length (Insts blk1) =
       Some (InstSIToFP (nextLocal f1) arg X86_FP80)) ∧
  ∃ m', (∀ fuel, (11 < fuel)%nat →
           run sitofp fuel
               (arena (liftInstFILD X86Inst X86Arg Inst_Arg useArg inst f).2)
               m = Done m') ∧
    mem m' =
      <[slotCell (fpuStack f1) (dec p) := RFloat (sitofp (signed t a))]>
        (<[st f1 := RInt I8 (dec p)]> (mem m)).
Proof.
  intros Huse Hlen Hblk Hopen Hpc Hidx Harg Hp Hrange.
  destruct m as [pb pi mm ee tr]. cbn [pcBlock pcIdx mem env trace] in *.
  subst pb pi.
  rewrite (liftInstFILD_fst _ _ _ _ Huse), (liftInstFILD_snd _ _ _ _ Huse).
  split; [exact eq_refl|].
  exact (fild_run f1
           (mkFunc (alter (addInst (InstSIToFP (nextLocal f1) arg X86_FP80))
                          (cur f1) (arena f1))
                   (Blocks f1) (cur f1) (st f1) (fpuStack f1)
                   (S (nextLocal f1)))
           blk1 arg t a p mm ee tr eq_refl eq_refl eq_refl
           eq_refl eq_refl Hlen Hblk Hopen Harg Hp Hrange).
Qed.

End FILDFacts.

Lemma sample_st_fresh : st sampleFunc ∉ fpuStack sampleFunc.
Proof. apply (bool_decide_unpack _). vm_compute. exact I. Qed.

Lemma sample_NoDup : NoDup (st sampleFunc :: fpuStack sampleFunc).
Proof. apply (bool_decide_unpack _). vm_compute. exact I. Qed.

Lemma fpush_decrements_pointer_witness :
  (∃ m', (∀ fuel, (10 < fuel)%nat →
            run id fuel (arena (fpush sampleValue sampleFunc).2)
                (sampleMachine 3) = Done m') ∧
     mem m' !! 0 = Some (RInt I8 2) ∧ mem m' !! 3 = Some (RInt I64 42)) ∧
  (∃ m', (∀ fuel, (10 < fuel)%nat →
            run id fuel (arena (fpush sampleValue sampleFunc).2)
                (sampleMachine 0) = Done m') ∧
     mem m' !! 0 = Some (RInt I8 7) ∧ mem m' !! 8 = Some (RInt I64 42)).
Proof.
  split.
  - destruct (fpush_decrements_pointer id sampleValue sampleFunc emptyBlock
                (sampleMachine 3) 3 (RInt I64 42))
      as (_ & _ & _ & m' & Hrun & Hptr & Hslot & _);
      [reflexivity|exact sample_st_fresh|reflexivity|reflexivity|reflexivity
      |reflexivity|reflexivity|lia|reflexivity|exact I|].
    exists m'. split; [exact Hrun|]. split; [exact Hptr|exact Hslot].
  - destruct (fpush_decrements_pointer id sampleValue sampleFunc emptyBlock
                (sampleMachine 0) 0 (RInt I64 42))
      as (_ & _ & _ & m' & Hrun & Hptr & Hslot & _);
      [reflexivity|exact sample_st_fresh|reflexivity|reflexivity|reflexivity
      |reflexivity|reflexivity|lia|reflexivity|exact I|].
    exists m'. split; [exact Hrun|]. split; [exact Hptr|exact Hslot].
Defined.

Lemma fpush_switch_dispatch_witness :
  ∃ m', (∀ fuel, (10 < fuel)%nat →
           run id fuel (arena (fpush sampleValue sampleFunc).2)
               (sampleMachine 3) = Done m') ∧
    pcBlock m' = 4 ∧ mem m' !! 3 = Some (RInt I64 42) ∧
    ∃ evs, trace m' = evs ∧ (13 ∉ entered evs) ∧ (7 ∈ entered evs).
Proof.
  destruct (fpush_switch_dispatch id sampleValue sampleFunc emptyBlock
              (sampleMachine 3) 3 (RInt I64 42))
    as (_ & _ & _ & _ & _ & m' & Hrun & Hpc & Hslot & evs & Htr & Hdef & Hcase);
    [reflexivity|exact sample_st_fresh|reflexivity|reflexivity|reflexivity
    |reflexivity|reflexivity|lia|reflexivity|exact I|].
  exists m'. split; [exact Hrun|]. split; [exact Hpc|]. split; [exact Hslot|].
  exists evs. split; [exact Htr|]. split; [exact Hdef|exact Hcase].
Defined.

Lemma eight_pushes_wrap_around_witness :
  ∃ m8, (∀ fuel, (80 < fuel)%nat →
           run id fuel (arena (pushAll sampleValues sampleFunc))
               (sampleMachine 3) = Done m8) ∧
    mem m8 !! 0 = Some (RInt I8 3) ∧
    ∃ evs, trace m8 = evs ∧
      slotStores sampleFunc evs = [3; 2; 1; 8; 7; 6; 5; 4].
Proof.
  destruct (eight_pushes_wrap_around id sampleValue sampleValues sampleFunc
              emptyBlock (sampleMachine 3) 3 (RInt I64 42)
              [RInt I64 1; RInt I64 2; RInt I64 3; RInt I64 4;
               RInt I64 5; RInt I64 6; RInt I64 7; RInt I64 8])
    as (_ & m8 & Hrun & Hptr & evs & Htr & Horder & _);
    [reflexivity|exact sample_NoDup|reflexivity|reflexivity|reflexivity
    |reflexivity|reflexivity|lia|reflexivity|exact I|reflexivity| |].
  - repeat (constructor; [split; [reflexivity|exact I]|]). constructor.
  - exists m8. split; [exact Hrun|]. split; [exact Hptr|].
    exists evs. split; [exact Htr|exact Horder].
Defined.

Lemma liftInstFILD_converts_and_pushes_witness :
  (liftInstFILD Z Z (λ inst _, inst) sampleUseArg 5%Z sampleFunc).1 = None ∧
  ∃ m', (∀ fuel, (11 < fuel)%nat →
           run id fuel
               (arena (liftInstFILD Z Z (λ inst _, inst) sampleUseArg 5%Z
                         sampleFunc).2)
               (sampleMachine 3) = Done m') ∧
    mem m' = <[3 := RFloat 5%Z]> (<[0 := RInt I8 2]> {[ 0 := RInt I8 3 ]}).
Proof.
  destruct (liftInstFILD_converts_and_pushes id (λ inst _, inst) sampleUseArg
              5%Z sampleFunc (ConstInt 5 I32) sampleFunc emptyBlock
              (sampleMachine 3) I32 5 3)
    as (Herr & _ & m' & Hrun & Hmem);
    [reflexivity|reflexivity|reflexivity|reflexivity|reflexivity|reflexivity
    |reflexivity|reflexivity|lia|].
  split; [exact Herr|]. exists m'. split; [exact Hrun|exact Hmem].
Defined.

End LiftFacts.

(* ===================================================================== *)
(** ** More about cmd/bin2ll/main.go *)
(* ===================================================================== *)

Module Bin2llMore.
Import Bin2ll Bin2llFacts.


Section MetadataFacts.
Context {PEFile OSFile : Type}.
Implicit Types (w : World PEFile OSFile) (d : disassembler PEFile).


(** The result of sorting does not depend on the order of the input
    when elements that tie are equal. *)
Lemma sortBy_Permutation_eq {A} (less : A → A → Prop)
    `{!∀ x y, Decision (less x y)} `{!Transitive (notAfter less)}
    (l l' : list A) :
  (∀ x y, less x y → ¬ less y x) →
  (∀ x y, x ∈ l → y ∈ l → ¬ less x y → ¬ less y x → x = y) →
  l ≡ₚ l' → sortBy less l = sortBy less l'.
Proof.
  intros Hasym Hties Hp.
  apply (Sorted_unique_strong (notAfter less)).
  - intros x y Hx Hy Hxy Hyx.
    rewrite sortBy_Permutation in Hx. rewrite sortBy_Permutation, <- Hp in Hy.
    by apply Hties.
  - by apply sortBy_Sorted.
  - by apply sortBy_Sorted.
  - by rewrite !sortBy_Permutation.
Qed.

Lemma sortAddresses_Permutation_eq (l l' : list Address) :
  l ≡ₚ l' → sortAddresses l = sortAddresses l'.
Proof.
  intros Hp. unfold sortAddresses.
  apply (sortBy_Permutation_eq lessAddr (Transitive0 := notAfter_lessAddr_trans));
    [| |done].
  - intros x y. apply lessAddr_asym.
  - intros x y _ _. unfold lessAddr. lia.
Qed.

(** X2.  The order in which the metadata files list their addresses does not
    matter: two file systems whose lists are permutations of each other
    give the same disassembler (each list is sorted before the chunks
    are made). *)
Theorem parseFile_ignores_list_order w w' binPath f
    funcs blocks data funcs' blocks' data' :
  pe_Open w binPath = inr f → pe_Open w' binPath = inr f →
  parseAddrs w "funcs.json" = inr funcs →
  parseAddrs w "blocks.json" = inr blocks →
  parseAddrs w "data.json" = inr data →
  parseAddrs w' "funcs.json" = inr funcs' →
  parseAddrs w' "blocks.json" = inr blocks' →
  parseAddrs w' "data.json" = inr data' →
  funcs ≡ₚ funcs' → blocks ≡ₚ blocks' → data ≡ₚ data' →
  parseFile w binPath = parseFile w' binPath.
Proof.
  intros Hf Hf' Hfu Hb Hd Hfu' Hb' Hd' Hpf Hpb Hpd.
  rewrite (parseFile_ok w binPath f funcs blocks data) by done.
  rewrite (parseFile_ok w' binPath f funcs' blocks' data') by done.
  f_equal. unfold classified.
  rewrite <- (sortAddresses_Permutation_eq funcs funcs') by done.
  rewrite <- (sortAddresses_Permutation_eq blocks blocks') by done.
  rewrite <- (sortAddresses_Permutation_eq data data') by done.
  reflexivity.
Qed.

(** X3.  Whatever the input, no address is dropped or invented: the Code
    chunks are the block addresses and the Data chunks are the data
    addresses, each as often as it was given, and no chunk has the
    zero kind. *)
Theorem chunks_census w binPath f funcs blocks data :
  pe_Open w binPath = inr f →
  parseAddrs w "funcs.json" = inr funcs →
  parseAddrs w "blocks.json" = inr blocks →
  parseAddrs w "data.json" = inr data →
  ∃ d, parseFile w binPath = inr d ∧
    length (chunks d) = length blocks + length data ∧
    addr <$> filter (λ c, ckind c = kindCode) (chunks d) ≡ₚ blocks ∧
    addr <$> filter (λ c, ckind c = kindData) (chunks d) ≡ₚ data ∧
    Forall (λ c, ckind c ≠ kindNone) (chunks d).
Proof.
  intros Hf Hfu Hb Hd.
  eexists. split; [by apply parseFile_ok|]. cbn [chunks].
  assert (∀ k k' (l : list Address), k ≠ k' →
            filter (λ c, ckind c = k) (mkChunk k' <$> l) = []) as Hnone.
  { intros k k' l Hk. induction l as [|a l IH]; [done|].
    rewrite fmap_cons, filter_cons_False by (simpl; congruence). exact IH. }
  assert (∀ k (l : list Address),
            filter (λ c, ckind c = k) (mkChunk k <$> l) = mkChunk k <$> l)
    as Hall.
  { intros k l. induction l as [|a l IH]; [done|].
    rewrite fmap_cons, filter_cons_True by done. by rewrite IH. }
  split; [|split; [|split]].
  - rewrite classified_Permutation, length_app, !length_fmap. reflexivity.
  - rewrite classified_Permutation, filter_app, Hall, Hnone by done.
    by rewrite app_nil_r, fmap_addr_mkChunk.
  - rewrite classified_Permutation, filter_app, Hall, Hnone by done.
    by rewrite app_nil_l, fmap_addr_mkChunk.
  - apply Forall_forall. intros c Hc.
    apply elem_of_classified in Hc as [[-> _]|[-> _]]; done.
Qed.

End MetadataFacts.


Lemma parseFile_ignores_list_order_witness :
  parseFile (sampleWorld [2; 1] [3; 1; 2] [5; 4])%N "a.exe" =
  parseFile (sampleWorld [1; 2] [1; 2; 3] [4; 5])%N "a.exe".
Proof.
  apply (parseFile_ignores_list_order
           (sampleWorld [2; 1] [3; 1; 2] [5; 4])%N
           (sampleWorld [1; 2] [1; 2; 3] [4; 5])%N "a.exe" tt
           [2; 1]%N [3; 1; 2]%N [5; 4]%N [1; 2]%N [1; 2; 3]%N [4; 5]%N);
    try reflexivity.
  - apply perm_swap.
  - change ([3; 1; 2]%N ≡ₚ [1; 2]%N ++ [3]%N).
    apply (Permutation_cons_append [1; 2]%N 3%N).
  - apply perm_swap.
Defined.

Lemma chunks_census_witness :
  ∃ d, parseFile (sampleWorld [] [1; 1] [1])%N "a.exe" = inr d ∧
    length (chunks d) = length [1; 1]%N + length [1]%N ∧
    addr <$> filter (λ c, ckind c = kindCode) (chunks d) ≡ₚ [1; 1]%N ∧
    addr <$> filter (λ c, ckind c = kindData) (chunks d) ≡ₚ [1]%N ∧
    Forall (λ c, ckind c ≠ kindNone) (chunks d).
Proof.
  apply (chunks_census (sampleWorld [] [1; 1] [1])%N "a.exe" tt []
           [1; 1]%N [1]%N); reflexivity.
Defined.

End Bin2llMore.

(* ===================================================================== *)
(** ** More about [parseInst] *)
(* ===================================================================== *)

Module X862goMore.
Import X862go X862goFacts.

Section Outcomes.
Variable getArg : Arg → Expr.

(** X4.  [parseInst] has three kinds of outcome and never mixes them: a
    statement without error for RET, LEA and XOR; neither statement nor
    error for PUSH and POP; an error without statement, after dumping
    the instruction, for every other mnemonic.  In particular the error
    case of [parseBinaryInst] cannot be reached through [parseInst]. *)
Theorem parseInst_outcomes (inst : Inst) :
  let r := parseInst getArg inst in
  (is_Some (stmt r) ↔ InstOp inst = RET ∨ InstOp inst = LEA ∨ InstOp inst = XOR) ∧
  (is_Some (err r) ↔ hasRule (InstOp inst) = false) ∧
  (printed r = [inst] ↔ hasRule (InstOp inst) = false) ∧
  (printed r = [] ↔ hasRule (InstOp inst) = true) ∧
  ¬ (is_Some (stmt r) ∧ is_Some (err r)).
Proof.
  unfold parseInst, parseLEA, parseBinaryInst.
  destruct (InstOp inst) eqn:E; cbn [stmt err printed hasRule];
    rewrite ?E; cbn [stmt err printed];
    (split; [|split; [|split; [|split]]]);
    try (split; [intros H|intros H]);
    try (intros [H1 H2]);
    repeat match goal with
           | H : is_Some None |- _ => by destruct H as [? ?]
           | H : _ ∨ _ |- _ => destruct H
           | |- is_Some (Some _) => by eexists
           end;
    try done; try discriminate; eauto.
Qed.

End Outcomes.

End X862goMore.

(* ===================================================================== *)
(** ** More about [fpush] *)
(* ===================================================================== *)

Module LiftMore.
Import Lift LiftFacts.

Local Opaque fpush.

(** X5.  [fpush] allocates 13 blocks and appends every one of them to the
    function exactly once, after the blocks that were there, the join
    block last. *)
Theorem fpush_registers_its_blocks src f :
  openCursor f →
  length (arena (fpush src f).2) = length (arena f) + 13 ∧
  (∃ new, Blocks (fpush src f).2 = Blocks f ++ new ∧
          new ≡ₚ seq (length (arena f)) 13 ∧
          last new = Some (cur (fpush src f).2)).
Proof.
  intros Hf. pose proof Hf as [Hlen _].
  rewrite fpush_result by done. cbn [snd arena Blocks cur].
  split.
  - rewrite length_app, length_alter. f_equal.
    unfold fpushNew. rewrite !length_app, length_fmap, Hlen. reflexivity.
  - exists (fpushAppended (length (arena f))).
    split; [reflexivity|]. split; [|reflexivity].
    unfold fpushAppended. generalize (length (arena f)). intros n.
    cbn [seq].
    replace (S n) with (n + 1) by lia.
    replace (S (n + 1)) with (n + 2) by lia.
    replace (S (n + 2)) with (n + 3) by lia.
    replace (S (n + 3)) with (n + 4) by lia.
    replace (S (n + 4)) with (n + 5) by lia.
    replace (S (n + 5)) with (n + 6) by lia.
    replace (S (n + 6)) with (n + 7) by lia.
    replace (S (n + 7)) with (n + 8) by lia.
    replace (S (n + 8)) with (n + 9) by lia.
    replace (S (n + 9)) with (n + 10) by lia.
    replace (S (n + 10)) with (n + 11) by lia.
    replace (S (n + 11)) with (n + 12) by lia.
    do 3 apply perm_skip.
    change ([n + 4; n + 5; n + 6; n + 7; n + 8; n + 9; n + 10; n + 11;
             n + 12; n + 3] ≡ₚ
            n + 3 :: [n + 4; n + 5; n + 6; n + 7; n + 8; n + 9; n + 10;
                      n + 11; n + 12]).
    symmetry. apply Permutation_cons_append.
Qed.

(** X6.  [fpush] only appends: every block that existed keeps its
    instructions as a prefix, and a block that already has a terminator
    is not changed at all. *)
Theorem fpush_is_append_only src f b blk :
  openCursor f →
  arena f !! b = Some blk →
  ∃ blk', arena (fpush src f).2 !! b = Some blk' ∧
    (∃ more, Insts blk' = Insts blk ++ more) ∧
    (Term blk ≠ None → blk' = blk).
Proof.
  intros Hf Hb. pose proof Hf as [_ (blk0 & Hblk0 & Hopen)].
  destruct (decide (b = cur f)) as [->|Hne].
  - assert (blk = blk0) as -> by congruence.
    pose proof Hf as [Hlen _].
    destruct (fpush_emitted src f blk0 Hlen Hblk0 Hopen) as [Hc _].
    eexists. split; [exact Hc|]. split; [by eexists|].
    intros Hcl. by destruct Hcl.
  - exists blk. split; [|split].
    + rewrite fpush_result by done. cbn [snd arena].
      rewrite lookup_app_l by (rewrite length_alter; by eapply lookup_lt_Some).
      by rewrite list_lookup_alter_ne.
    + exists []. by rewrite app_nil_r.
    + done.
Qed.

(** X7.  After any number of consecutive pushes emission can go on: the
    cursor stands in an open block, the pointer cell and the slots of the
    function are the same, and each push has used four instruction
    identities. *)
Theorem pushes_leave_cursor_open srcs f :
  openCursor f →
  openCursor (pushAll srcs f) ∧
  st (pushAll srcs f) = st f ∧
  fpuStack (pushAll srcs f) = fpuStack f ∧
  nextLocal (pushAll srcs f) = nextLocal f + 4 * length srcs ∧
  (srcs ≠ [] →
   arena (pushAll srcs f) !! cur (pushAll srcs f) = Some emptyBlock).
Proof.
  intros Hf.
  destruct (pushAll_cursor srcs f Hf) as (Hst & Hfs & _ & Hopen & Hend).
  split; [exact Hopen|]. split; [exact Hst|]. split; [exact Hfs|].
  split; [|exact Hend].
  clear Hst Hfs Hopen Hend. revert f Hf.
  induction srcs as [|src srcs IH]; intros f Hf.
  - unfold pushAll. cbn [foldl length]. lia.
  - rewrite pushAll_cons.
    destruct (fpush_cursor src f Hf) as (_ & _ & _ & _ & Hnl & Hf').
    rewrite (IH _ Hf'), Hnl. cbn [length]. lia.
Qed.

Section MoreExec.
Context {float : Type} (sitofp : Z → float).
Implicit Types (m : Machine float) (P : list BasicBlock).

Lemma run_halts k P m m1 :
  stepn sitofp k P m = Some m1 → step sitofp P m1 = Halt →
  ∀ fuel, (k < fuel)%nat → run sitofp fuel P m = Done m1.
Proof.
  intros Hk Hhalt fuel Hfuel.
  replace fuel with (k + S (fuel - S k)) by lia.
  rewrite (run_stepn _ _ _ _ _ _ Hk). cbn [run]. by rewrite Hhalt.
Qed.

Lemma run_faults k P m m1 :
  stepn sitofp k P m = Some m1 → step sitofp P m1 = Fault →
  ∀ fuel, (k < fuel)%nat → run sitofp fuel P m = Faulted m1.
Proof.
  intros Hk Hfault fuel Hfuel.
  replace fuel with (k + S (fuel - S k)) by lia.
  rewrite (run_stepn _ _ _ _ _ _ Hk). cbn [run]. by rewrite Hfault.
Qed.

Lemma step_cursor P b blk mm ee tr :
  P !! b = Some blk → Term blk = None →
  step sitofp P (mkMachine b (length (Insts blk)) mm ee tr) = Halt.
Proof.
  intros Hb Ht. unfold step. cbn [pcBlock pcIdx]. rewrite Hb.
  rewrite lookup_ge_None_2 by lia. by rewrite Ht.
Qed.

Lemma dec_mod p : (0 ≤ p ≤ 7)%Z → dec p = ((p - 1) mod 8)%Z.
Proof.
  intros Hp. unfold dec. destruct (Z.eqb_spec p 0) as [->|Hne]; [done|].
  by rewrite Z.mod_small by lia.
Qed.

Lemma decN_0 p : decN 0 p = p.
Proof. reflexivity. Qed.

Lemma decN_S k p : decN (S k) p = dec (decN k p).
Proof. reflexivity. Qed.


Lemma decN_range k p : (0 ≤ p ≤ 7)%Z → (0 ≤ decN k p ≤ 7)%Z.
Proof.
  intros Hp. induction k as [|k IH]; [done|].
  rewrite decN_S. by apply dec_range.
Qed.

Lemma decN_mod k p :
  (0 ≤ p ≤ 7)%Z → decN k p = ((p - Z.of_nat k) mod 8)%Z.
Proof.
  intros Hp. induction k as [|k IH].
  - rewrite decN_0. change (Z.of_nat 0) with 0%Z.
    rewrite Z.sub_0_r, Z.mod_small; lia.
  - pose proof (decN_range k p Hp) as Hr.
    rewrite decN_S, dec_mod by done.
    rewrite IH, Zminus_mod_idemp_l. f_equal. lia.
Qed.

(** X8.  Any number of consecutive pushes: the pointer cell ends with
    [(p - k) mod 8], and the cells are those of the register stack. *)
Theorem pointer_after_pushes srcs vs f blk0 m p :
  length (fpuStack f) = 8 → st f ∉ fpuStack f →
  arena f !! cur f = Some blk0 → Term blk0 = None →
  pcBlock m = cur f → pcIdx m = length (Insts blk0) →
  mem m !! st f = Some (RInt I8 p) → (0 ≤ p ≤ 7)%Z →
  Forall2 (λ src v, eval (env m) src = Some v ∧ definedBefore f src) srcs vs →
  ∃ m', (∀ fuel, (10 * length srcs < fuel)%nat →
           run sitofp fuel (arena (pushAll srcs f)) m = Done m') ∧
    mem m' !! st f = Some (RInt I8 ((p - Z.of_nat (length srcs)) mod 8)) ∧
    mem m' = (pushMany (st f) (fpuStack f) (p, mem m) vs).2.
Proof.
  intros Hlen Hst Hblk Hopen Hpc Hidx Hp Hrange Hvs.
  destruct m as [pb pi mm ee tr]. cbn [pcBlock pcIdx mem env trace] in *.
  subst pb pi.
  destruct (pushAll_exec sitofp srcs vs f blk0 mm ee tr p Hlen Hst Hblk Hopen
              Hp Hrange Hvs)
    as (k & ee' & evs & Hk & Hsteps & Hptr & _).
  assert (openCursor f) as Hf by (split; [exact Hlen|by exists blk0]).
  destruct (pushAll_cursor srcs f Hf) as (_ & _ & _ & _ & Hend).
  eexists. split; [|split].
  - intros fuel Hfuel.
    eapply run_halts; [exact Hsteps| |lia].
    destruct srcs as [|src srcs].
    + unfold pushAll. cbn [foldl]. by apply step_cursor.
    + apply step_open. cbn [pcBlock]. apply Hend. discriminate.
  - cbn [mem]. rewrite pushMany_pointer by done.
    by rewrite Hptr, decN_mod.
  - reflexivity.
Qed.





Ltac step_in H :=
  rewrite stepn_S;
  lazymatch goal with
  | |- context [step _ ?P (mkMachine ?b ?i ?mm ?ee ?tr)] =>
    lazymatch type of H with
    | P !! b = Some ?blk =>
      first
        [ erewrite (step_inst _ P b i mm ee tr blk _ H)
            by (first [apply entry_0 | apply entry_1 | reflexivity])
        | erewrite (step_term _ P b i mm ee tr blk _ H)
            by (first [apply entry_2 | reflexivity]) ]
    end
  end;
  cbn [execInst execTerm eval env mem].

Lemma switchTarget_out_of_range n q :
  ¬ (0 ≤ q ≤ 7)%Z →
  switchTarget I8 q (n + 12) (fpushSwitchCases n) = n + 12.
Proof.
  intros Hq. unfold fpushSwitchCases. cbn [switchTarget Typ_eqb andb].
  change (wrap I8 0) with 0%Z. change (wrap I8 1) with 1%Z.
  change (wrap I8 2) with 2%Z. change (wrap I8 3) with 3%Z.
  change (wrap I8 4) with 4%Z. change (wrap I8 5) with 5%Z.
  change (wrap I8 6) with 6%Z. change (wrap I8 7) with 7%Z.
  repeat match goal with
         | |- context [(?i =? q)%Z] =>
           rewrite (proj2 (Z.eqb_neq i q)) by lia
         end.
  reflexivity.
Qed.

Lemma switchTarget_7 n :
  switchTarget I8 7 (n + 12) (fpushSwitchCases n) = n + 11.
Proof. reflexivity. Qed.

(** The code of one push run from a pointer [p] that is not 0 (in range
    or not), up to the switch. *)
Lemma push_to_switch P c blk0 src l s n slots mm ee tr p :
  emittedPush P c blk0 src l s n slots →
  mm !! s = Some (RInt I8 p) → (1 ≤ p ≤ 255)%Z →
  stepn sitofp 8 P (mkMachine c (length (Insts blk0)) mm ee tr) =
    Some (mkMachine (switchTarget I8 (p - 1) (n + 12) (fpushSwitchCases n)) 0
            (<[s := RInt I8 (p - 1)]> mm)
            (<[S (S (S l)) := RInt I8 (p - 1)]>
               (<[S (S l) := RInt I8 (p - 1)]>
                  (<[S l := RInt I1 0]> (<[l := RInt I8 p]> ee))))
            (tr ++ [EvEnter (n + 1); EvStore s (RInt I8 (p - 1));
                    EvEnter (n + 2);
                    EvEnter (switchTarget I8 (p - 1) (n + 12)
                               (fpushSwitchCases n))])).
Proof.
  intros [Hc Hn] Hs Hp.
  pose proof (Hn 1 _ ltac:(done) eq_refl) as H1.
  pose proof (Hn 2 _ ltac:(done) eq_refl) as H2.
  clear Hn.
  (* load *)
  step_in Hc. rewrite Hs. cbn [setLocal pcBlock pcIdx mem env trace].
  (* icmp *)
  step_in Hc. rewrite lookup_insert_eq.
  change (wrap I8 0) with 0%Z. cbn [Typ_eqb].
  rewrite (proj2 (Z.eqb_neq p 0)) by lia.
  cbn [setLocal pcBlock pcIdx mem env trace].
  (* br *)
  step_in Hc. rewrite lookup_insert_eq.
  change (0 =? 0)%Z with true. cbn [jump pcBlock pcIdx mem env trace].
  (* sub *)
  step_in H1.
  rewrite lookup_insert_ne, lookup_insert_eq by lia.
  change (wrap I8 1) with 1%Z. cbn [Typ_eqb].
  replace (wrap I8 (p - 1)) with (p - 1)%Z
    by (unfold wrap; rewrite Z.mod_small; [done|cbn; lia]).
  cbn [setLocal pcBlock pcIdx mem env trace].
  (* store *)
  step_in H1. rewrite lookup_insert_eq.
  cbn [pcBlock pcIdx mem env trace].
  (* br *)
  step_in H1.
  cbn [jump pcBlock pcIdx mem env trace].
  (* load *)
  step_in H2. rewrite lookup_insert_eq.
  cbn [setLocal pcBlock pcIdx mem env trace].
  (* switch *)
  step_in H2. rewrite lookup_insert_eq.
  cbn [jump pcBlock pcIdx mem env trace stepn].
  rewrite <- !app_assoc. reflexivity.
Qed.

(** X10.  A pointer outside [0,8] is caught: with 9 to 255 in the pointer
    cell, the code of a push stores the decremented pointer, takes the
    default target of the switch and stops at [unreachable]; no slot is
    written. *)
Theorem out_of_range_pointer_reaches_unreachable src f blk0 m p :
  length (fpuStack f) = 8 →
  arena f !! cur f = Some blk0 → Term blk0 = None →
  pcBlock m = cur f → pcIdx m = length (Insts blk0) →
  mem m !! st f = Some (RInt I8 p) → (9 ≤ p ≤ 255)%Z →
  ∃ m', (∀ fuel, (8 < fuel)%nat →
           run sitofp fuel (arena (fpush src f).2) m = Faulted m') ∧
    pcBlock m' = length (arena f) + 12 ∧
    arena (fpush src f).2 !! pcBlock m' =
      Some (mkBlock [] (Some TermUnreachable)) ∧
    mem m' = <[st f := RInt I8 (p - 1)]> (mem m).
Proof.
  intros Hlen Hblk Hopen Hpc Hidx Hp Hrange.
  destruct m as [pb pi mm ee tr]. cbn [pcBlock pcIdx mem env trace] in *.
  subst pb pi.
  pose proof (fpush_emitted src f blk0 Hlen Hblk Hopen) as Hem.
  assert (arena (fpush src f).2 !! (length (arena f) + 12) =
            Some (mkBlock [] (Some TermUnreachable))) as H12.
  { destruct Hem as [_ Hn]. apply Hn; [lia|].
    destruct (list8 _ Hlen)
      as (c0 & c1 & c2 & c3 & c4 & c5 & c6 & c7 & ->). reflexivity. }
  revert Hem H12. generalize ((fpush src f).2). intros f1 Hem H12.
  pose proof (push_to_switch _ _ _ _ _ _ _ _ mm ee tr p Hem Hp
                ltac:(lia)) as Hsteps.
  rewrite switchTarget_out_of_range in Hsteps by lia.
  eexists. split; [|split; [|split]].
  - intros fuel Hfuel. eapply run_faults; [exact Hsteps| |exact Hfuel].
    by erewrite (step_term sitofp _ _ _ _ _ _ _ _ H12) by reflexivity.
  - reflexivity.
  - exact H12.
  - reflexivity.
Qed.

(** X11.  The pointer value 8, although outside [0,7], is not caught: the push
    decrements it to 7 and stores the value in slot 7. *)
Theorem pointer_8_is_not_caught src f blk0 m v :
  length (fpuStack f) = 8 →
  arena f !! cur f = Some blk0 → Term blk0 = None →
  pcBlock m = cur f → pcIdx m = length (Insts blk0) →
  mem m !! st f = Some (RInt I8 8) →
  eval (env m) src = Some v → definedBefore f src →
  ∃ m', (∀ fuel, (10 < fuel)%nat →
           run sitofp fuel (arena (fpush src f).2) m = Done m') ∧
    mem m' = <[slotCell (fpuStack f) 7 := v]> (<[st f := RInt I8 7]> (mem m)).
Proof.
  intros Hlen Hblk Hopen Hpc Hidx Hp Hv Hsrc.
  destruct m as [pb pi mm ee tr]. cbn [pcBlock pcIdx mem env trace] in *.
  subst pb pi.
  assert (openCursor f) as Hf by (split; [exact Hlen|by exists blk0]).
  pose proof (fpush_emitted src f blk0 Hlen Hblk Hopen) as Hem.
  pose proof (fpush_cursor src f Hf) as Hc1. cbn zeta in Hc1.
  destruct Hc1 as (Hcur & Hend & _).
  destruct (list8 _ Hlen) as (c0 & c1 & c2 & c3 & c4 & c5 & c6 & c7 & Hslots).
  assert (arena (fpush src f).2 !! (length (arena f) + 11) =
            Some (caseBlock src (length (arena f)) c7)) as H11.
  { destruct Hem as [_ Hn]. apply Hn; [lia|]. rewrite Hslots. reflexivity. }
  revert Hem H11 Hcur Hend. generalize ((fpush src f).2).
  intros f1 Hem H11 Hcur Hend.
  pose proof (push_to_switch _ _ _ _ _ _ _ _ mm ee tr 8 Hem Hp
                ltac:(lia)) as Hsteps.
  change (8 - 1)%Z with 7%Z in Hsteps. rewrite switchTarget_7 in Hsteps.
  rewrite Hslots. change (slotCell [c0; c1; c2; c3; c4; c5; c6; c7] 7) with c7.
  eexists. split.
  - intros fuel Hfuel.
    eapply (run_halts (8 + 2)).
    + rewrite (stepn_add sitofp _ _ _ _ _ Hsteps).
      step_in H11.
      rewrite !(eval_insert_fresh _ (nextLocal f)) by (done || lia).
      rewrite Hv. cbn [pcBlock pcIdx mem env trace].
      step_in H11.
      cbn [jump pcBlock pcIdx mem env trace stepn].
      rewrite <- Hcur. reflexivity.
    + apply step_open. exact Hend.
    + exact Hfuel.
  - reflexivity.
Qed.

End MoreExec.

Lemma sample_openCursor : openCursor sampleFunc.
Proof. split; [reflexivity|]. exists emptyBlock. split; reflexivity. Qed.

Lemma sample_values :
  Forall2 (λ src v, eval (env (sampleMachine 3)) src = Some v ∧
                    definedBefore sampleFunc src)
    sampleValues
    [RInt I64 1; RInt I64 2; RInt I64 3; RInt I64 4;
     RInt I64 5; RInt I64 6; RInt I64 7; RInt I64 8].
Proof. repeat (constructor; [split; [reflexivity|exact I]|]). constructor. Qed.

Lemma fpush_registers_its_blocks_witness :
  length (arena (fpush sampleValue sampleFunc).2) = length (arena sampleFunc) + 13 ∧
  (∃ new, Blocks (fpush sampleValue sampleFunc).2 = Blocks sampleFunc ++ new ∧
          new ≡ₚ seq (length (arena sampleFunc)) 13 ∧
          last new = Some (cur (fpush sampleValue sampleFunc).2)).
Proof. exact (fpush_registers_its_blocks sampleValue sampleFunc sample_openCursor). Defined.

Lemma fpush_is_append_only_witness :
  ∃ blk', arena (fpush sampleValue sampleFunc).2 !! 0 = Some blk' ∧
    (∃ more, Insts blk' = Insts emptyBlock ++ more) ∧
    (Term emptyBlock ≠ None → blk' = emptyBlock).
Proof.
  exact (fpush_is_append_only sampleValue sampleFunc 0 emptyBlock
           sample_openCursor eq_refl).
Defined.

Lemma pushes_leave_cursor_open_witness :
  openCursor (pushAll sampleValues sampleFunc) ∧
  st (pushAll sampleValues sampleFunc) = st sampleFunc ∧
  fpuStack (pushAll sampleValues sampleFunc) = fpuStack sampleFunc ∧
  nextLocal (pushAll sampleValues sampleFunc) =
    nextLocal sampleFunc + 4 * length sampleValues ∧
  (sampleValues ≠ [] →
   arena (pushAll sampleValues sampleFunc)
     !! cur (pushAll sampleValues sampleFunc) = Some emptyBlock).
Proof. exact (pushes_leave_cursor_open sampleValues sampleFunc sample_openCursor). Defined.

Lemma pointer_after_pushes_witness :
  ∃ m', (∀ fuel, (10 * length sampleValues < fuel)%nat →
           run id fuel (arena (pushAll sampleValues sampleFunc))
               (sampleMachine 3) = Done m') ∧
    mem m' !! st sampleFunc =
      Some (RInt I8 ((3 - Z.of_nat (length sampleValues)) mod 8)).
Proof.
  destruct (pointer_after_pushes id sampleValues _ sampleFunc emptyBlock
              (sampleMachine 3) 3 eq_refl sample_st_fresh eq_refl eq_refl
              eq_refl eq_refl eq_refl ltac:(lia) sample_values)
    as (m' & Hrun & Hptr & _).
  exists m'. split; [exact Hrun|exact Hptr].
Defined.


Lemma out_of_range_pointer_reaches_unreachable_witness :
  ∃ m', (∀ fuel, (8 < fuel)%nat →
           run id fuel (arena (fpush sampleValue sampleFunc).2)
               (sampleMachine 200) = Faulted m') ∧
    pcBlock m' = length (arena sampleFunc) + 12.
Proof.
  destruct (out_of_range_pointer_reaches_unreachable id sampleValue sampleFunc
              emptyBlock (sampleMachine 200) 200 eq_refl eq_refl eq_refl
              eq_refl eq_refl eq_refl ltac:(lia))
    as (m' & Hrun & Hpc & _).
  exists m'. split; [exact Hrun|exact Hpc].
Defined.

Lemma pointer_8_is_not_caught_witness :
  ∃ m', (∀ fuel, (10 < fuel)%nat →
           run id fuel (arena (fpush sampleValue sampleFunc).2)
               (sampleMachine 8) = Done m') ∧
    mem m' = <[slotCell (fpuStack sampleFunc) 7 := RInt I64 42]>
               (<[st sampleFunc := RInt I8 7]> (mem (sampleMachine 8))).
Proof.
  exact (pointer_8_is_not_caught id sampleValue sampleFunc emptyBlock
           (sampleMachine 8) (RInt I64 42) eq_refl eq_refl eq_refl eq_refl
           eq_refl eq_refl eq_refl I).
Defined.

End LiftMore.

(* ===================================================================== *)
(** ** The section listing *)
(* ===================================================================== *)

Module DumpFacts.
Import Dump.

Local Open Scope Z_scope.

Ltac pow2 :=
  change (2 ^ 64) with 18446744073709551616 in *;
  change (2 ^ 63) with 9223372036854775808 in *.

Lemma u64_small z : 0 ≤ z < 2 ^ 64 → u64 z = z.
Proof. intros. unfold u64. apply Z.mod_small. lia. Qed.

Lemma u64_range z : 0 ≤ u64 z < 2 ^ 64.
Proof. unfold u64. apply Z.mod_pos_bound. pow2. lia. Qed.

Lemma u64_sub_add a k : u64 (u64 (a + k) - a) = u64 k.
Proof.
  unfold u64. rewrite Zminus_mod_idemp_l. f_equal. lia.
Qed.

Lemma u64_add_sub a b : u64 (a + u64 (b - a)) = u64 b.
Proof.
  unfold u64. rewrite Zplus_mod_idemp_r. f_equal. lia.
Qed.

Lemma toInt_small z : 0 ≤ z < 2 ^ 63 → toInt z = z.
Proof.
  intros. unfold toInt. destruct (Z.ltb_spec z (2 ^ 63)); [done|lia].
Qed.

Section DataFacts.

Variable sect : Sect.
Hypothesis Hlen : Z.of_nat (length (Section_Data sect)) < 2 ^ 63.

(** The byte at offset [k] of the section. *)
Lemma data_lookup (k : nat) :
  Z.of_nat k < 2 ^ 63 →
  data sect (u64 (Section_Addr sect + Z.of_nat k)) = Section_Data sect !! k.
Proof.
  intros Hk. unfold data. rewrite u64_sub_add.
  rewrite (u64_small (Z.of_nat k)) by (pow2; lia).
  rewrite toInt_small by lia. rewrite Nat2Z.id.
  destruct (Z.ltb_spec (Z.of_nat k) 0) as [?|_]; [lia|].
  destruct (Z.geb_spec (Z.of_nat k) (Z.of_nat (length (Section_Data sect))))
    as [Hge|Hlt]; cbn [orb].
  - symmetry. apply lookup_ge_None. lia.
  - done.
Qed.

(** X12.  The closure [data] finds a byte exactly at the addresses of
    the section: [data addr] is the byte at offset [k] when [addr] is the
    section's start plus [k] (modulo 2^64, so also for a section that
    runs over the top of the address space), and nothing anywhere
    else. *)
Theorem data_in_section (addr : Z) (b : Byte.byte) :
  0 ≤ addr < 2 ^ 64 →
  data sect addr = Some b ↔
  ∃ k : nat, Section_Data sect !! k = Some b
             ∧ addr = u64 (Section_Addr sect + Z.of_nat k).
Proof.
  intros Haddr. split.
  - unfold data. intros H.
    pose proof (u64_range (addr - Section_Addr sect)) as Hr.
    set (d := u64 (addr - Section_Addr sect)) in *.
    destruct (Z.ltb_spec (toInt d) 0) as [?|Hge]; [done|].
    destruct (Z.geb_spec (toInt d) (Z.of_nat (length (Section_Data sect))))
      as [?|Hlt]; [done|]. cbn [orb] in H.
    assert (toInt d = d) as Hd.
    { unfold toInt in *. destruct (Z.ltb_spec d (2 ^ 63)); [done|lia]. }
    exists (Z.to_nat d). split; [done|].
    rewrite Z2Nat.id by lia. unfold d. rewrite u64_add_sub.
    symmetry. by apply u64_small.
  - intros (k & Hk & ->). rewrite data_lookup; [done|].
    apply lookup_lt_Some in Hk. lia.
Qed.

End DataFacts.



Section WalkFacts.

Variable PermX : Z.
Variable isPrint : Byte.byte → bool.
Variable sect : Sect.
Variables entry itAddr itEnd rsrcTableAddr rsrcTableEnd iatAddr iatEnd : Z.
Variable funcs : gmap Z Func.
Variable blocks : gmap Z BasicBlock.
Variable insts : gmap Z Inst.

Notation labelAt :=
  (labelAt entry itAddr itEnd rsrcTableAddr rsrcTableEnd iatAddr iatEnd).
Notation headersAt := (headersAt sect funcs blocks).




Section Generic.

Variable data : Z → option Byte.byte.
Variable end_ : Z.

Notation walk :=
  (walk PermX isPrint sect entry itAddr itEnd rsrcTableAddr rsrcTableEnd
     iatAddr iatEnd funcs blocks insts data end_).
Notation executable := (executable PermX sect).

(** A byte that the inner loop cannot locate lies within the
    instruction. *)
Lemma instBytes_inl a i n x :
  0 ≤ i →
  instBytes data a i n = inl x →
  data x = None ∧ ∃ j, i ≤ j < i + Z.of_nat n ∧ x = u64 (a + j).
Proof.
  revert i. induction n as [|n IH]; intros i Hi; cbn [instBytes]; [done|].
  destruct (data (u64 (a + i))) as [b|] eqn:Hb.
  - destruct (instBytes data a (i + 1) n) as [y|bs] eqn:Hrec; [|done].
    intros [= ->]. destruct (IH (i + 1) ltac:(lia) Hrec) as (Hx & j & Hj & ->).
    split; [done|]. exists j. split; [lia|done].
  - intros [= <-]. split; [done|]. exists i. split; [lia|done].
Qed.

Lemma walk_panics fuel a p :
  walk fuel a = WalkPanic p →
  ∃ a' inst x,
    p = UnableToLocateData x ∧ executable = true
    ∧ insts !! a' = Some inst ∧ data x = None
    ∧ ∃ j, 0 ≤ j < Inst_Len inst ∧ x = u64 (a' + j).
Proof.
  revert a. induction fuel as [|fuel IH]; intros a; cbn [Dump.walk]; [done|].
  destruct (a <=? end_); [|done].
  destruct executable eqn:Hx.
  - destruct (insts !! a) as [inst|] eqn:Hi.
    + destruct (instBytes data a 0 (Z.to_nat (Inst_Len inst))) as [x|bs] eqn:Hb.
      * intros [= <-]. apply instBytes_inl in Hb as (Hn & j & Hj & ->); [|lia].
        exists a, inst, (u64 (a + j)). repeat split; try done.
        exists j. split; [lia|done].
      * destruct (walk fuel _) eqn:Hw; cbn [prepend]; try done.
        intros [= <-]. by eapply IH.
    + destruct (walk fuel _) eqn:Hw; cbn [prepend]; try done.
      intros [= <-]. by eapply IH.
  - destruct (walk fuel _) eqn:Hw; cbn [prepend]; try done.
    intros [= <-]. by eapply IH.
Qed.

(** An instruction of length zero is listed again and again. *)
Lemma walk_stuck fuel a inst :
  0 ≤ a < 2 ^ 64 → a ≤ end_ →
  executable = true → insts !! a = Some inst → Inst_Len inst = 0 →
  walk fuel a = WalkHangs.
Proof.
  intros Ha Hend Hx Hi Hl.
  induction fuel as [|fuel IH]; cbn [Dump.walk]; [done|].
  destruct (Z.leb_spec a end_); [|lia].
  rewrite Hx, Hi, Hl. cbn [Z.to_nat instBytes].
  rewrite Z.add_0_r, (u64_small a) by done. rewrite IH. done.
Qed.

End Generic.

Hypothesis Hlen : Z.of_nat (length (Section_Data sect)) < 2 ^ 63.
Hypothesis Haddr :
  0 ≤ Section_Addr sect
  ∧ Section_Addr sect + Z.of_nat (length (Section_Data sect)) + 1 < 2 ^ 64.

Notation end_ :=
  (u64 (Section_Addr sect + Z.of_nat (length (Section_Data sect)))).
Notation walk :=
  (walk PermX isPrint sect entry itAddr itEnd rsrcTableAddr rsrcTableEnd
     iatAddr iatEnd funcs blocks insts (data sect) end_).
Notation executable := (executable PermX sect).




Hypothesis Hinsts : ∀ a inst,
  insts !! a = Some inst →
  Section_Addr sect ≤ a ≤ end_ →
  1 ≤ Inst_Len inst
  ∧ a + Inst_Len inst
    ≤ Section_Addr sect + Z.of_nat (length (Section_Data sect)).


End WalkFacts.

Section DumpSectionFacts.

Variable PermX : Z.
Variable isPrint : Byte.byte → bool.

Notation dumpSection := (dumpSection PermX isPrint).
Notation executable := (executable PermX).

Lemma directories (dataDirs : list DataDirectory) :
  (13 ≤ length dataDirs)%nat →
  ∃ d1 d2 d12, dataDirs !! 1%nat = Some d1 ∧ dataDirs !! 2%nat = Some d2
               ∧ dataDirs !! 12%nat = Some d12.
Proof.
  intros H.
  destruct (lookup_lt_is_Some_2 dataDirs 1) as [d1 H1]; [lia|].
  destruct (lookup_lt_is_Some_2 dataDirs 2) as [d2 H2]; [lia|].
  destruct (lookup_lt_is_Some_2 dataDirs 12) as [d12 H12]; [lia|].
  by exists d1, d2, d12.
Qed.


(** X14.  [dumpSection] panics in two cases only: the table of data
    directories has fewer than 13 entries, or the section is executable
    and some byte of an indexed instruction is not in the section. *)
Theorem dumpSection_panics_only fuel sect entry imageBase dataDirs
    funcs blocks insts data p :
  dumpSection fuel sect entry imageBase dataDirs funcs blocks insts data
    = DumpPanic p →
  (∃ i, p = IndexOutOfRange i ∧ (length dataDirs < 13)%nat)
  ∨ (∃ a inst x,
       p = UnableToLocateData x ∧ executable sect = true
       ∧ insts !! a = Some inst ∧ data x = None
       ∧ ∃ j, 0 ≤ j < Inst_Len inst ∧ x = u64 (a + j)).
Proof.
  unfold Dump.dumpSection.
  destruct (dataDirs !! 1%nat) as [d1|] eqn:H1.
  2:{ intros [= <-]. left. eexists. split; [done|].
      apply lookup_ge_None in H1. lia. }
  destruct (dataDirs !! 2%nat) as [d2|] eqn:H2.
  2:{ intros [= <-]. left. eexists. split; [done|].
      apply lookup_ge_None in H2. lia. }
  destruct (dataDirs !! 12%nat) as [d12|] eqn:H12.
  2:{ intros [= <-]. left. eexists. split; [done|].
      apply lookup_ge_None in H12. lia. }
  destruct (walk _ _ _ _ _ _ _ _ _ _ _ _ _ _ _ _ _) as [ls|q|] eqn:Hw;
    [done| |done].
  intros [= <-]. right. by eapply walk_panics.
Qed.

(** X15.  An indexed instruction of length zero at the start of an
    executable section keeps [dumpSection] from returning: the loop does
    not advance, whatever the fuel. *)
Theorem zero_length_instruction_hangs fuel sect entry imageBase dataDirs
    funcs blocks insts data inst :
  0 ≤ Section_Addr sect
  ∧ Section_Addr sect + Z.of_nat (length (Section_Data sect)) < 2 ^ 64 →
  (13 ≤ length dataDirs)%nat →
  executable sect = true →
  insts !! Section_Addr sect = Some inst →
  Inst_Len inst = 0 →
  dumpSection fuel sect entry imageBase dataDirs funcs blocks insts data
    = DumpHangs.
Proof.
  intros Haddr Hdirs Hx Hi Hl.
  destruct (directories dataDirs Hdirs) as (d1 & d2 & d12 & H1 & H2 & H12).
  unfold Dump.dumpSection. rewrite H1, H2, H12.
  erewrite walk_stuck; [done| | |exact Hx|exact Hi|exact Hl].
  - lia.
  - rewrite u64_small by lia. lia.
Qed.

End DumpSectionFacts.

Section IndexFacts.

Lemma indexes_insert m l x :
  indexes m l → indexes (<[Inst_Addr x := x]> m) (l ++ [x]).
Proof.
  intros [H1 H2]. split.
  - intros a i. destruct (decide (Inst_Addr x = a)) as [<-|Hne].
    + rewrite lookup_insert_eq. intros [= <-]. split; [|done].
      apply elem_of_app. right. by apply list_elem_of_singleton.
    + rewrite lookup_insert_ne by done. intros H.
      destruct (H1 _ _ H) as [? ?]. split; [|done].
      apply elem_of_app. by left.
  - intros i [Hi|Hi%list_elem_of_singleton]%elem_of_app.
    + destruct (decide (Inst_Addr x = Inst_Addr i)) as [<-|Hne].
      * rewrite lookup_insert_eq. by eexists.
      * rewrite lookup_insert_ne by done. by apply H2.
    + subst i. rewrite lookup_insert_eq. by eexists.
Qed.

Lemma indexes_indexInsts m l xs :
  indexes m l → indexes (indexInsts m xs) (l ++ xs).
Proof.
  revert m l. induction xs as [|x xs IH]; intros m l H; cbn.
  - by rewrite app_nil_r.
  - rewrite (assoc_L app l [x] xs) at 1.
    replace (l ++ x :: xs) with ((l ++ [x]) ++ xs) by (by rewrite <- app_assoc).
    apply IH. by apply indexes_insert.
Qed.

Lemma indexes_indexBlock acc l b :
  indexes acc.2 l → indexes (indexBlock acc b).2 (l ++ blockInsts b).
Proof.
  intros H. unfold indexBlock, blockInsts. cbn [snd].
  destruct (Inst_IsDummyTerm (Block_Term b)).
  - rewrite app_nil_r. by apply indexes_indexInsts.
  - rewrite app_assoc. apply indexes_insert. by apply indexes_indexInsts.
Qed.

Lemma indexes_blocks acc l bs :
  indexes acc.2 l →
  indexes (foldl indexBlock acc bs).2 (l ++ bs ≫= blockInsts).
Proof.
  revert acc l. induction bs as [|b bs IH]; intros acc l H; cbn [foldl].
  - cbn. by rewrite app_nil_r.
  - rewrite bind_cons, app_assoc. apply IH. by apply indexes_indexBlock.
Qed.

Lemma indexes_funcs acc l fs :
  indexes acc.2.2 l →
  indexes (foldl indexFunc acc fs).2.2 (l ++ allInsts fs).
Proof.
  revert acc l. induction fs as [|f fs IH]; intros acc l H; cbn [foldl].
  - cbn. by rewrite app_nil_r.
  - unfold allInsts. rewrite bind_cons, app_assoc. apply IH.
    unfold indexFunc. cbn [snd]. by apply indexes_blocks.
Qed.

(** X16.  The instruction index of [dumpSections] holds exactly the
    instructions of the blocks and the terminators that are not dummies:
    every entry is such an instruction, stored under its own address, and
    every such instruction has its address indexed.  A dummy terminator
    is never an entry of its own. *)
Theorem index_holds_all_instructions (fs : list Func) :
  (∀ a i, (index fs).2.2 !! a = Some i → i ∈ allInsts fs ∧ Inst_Addr i = a)
  ∧ (∀ i, i ∈ allInsts fs → is_Some ((index fs).2.2 !! Inst_Addr i)).
Proof.
  pose proof (indexes_funcs (∅, (∅, ∅)) [] fs) as H.
  cbn [app] in H. apply H. split; cbn [snd].
  - intros a i. by rewrite lookup_empty.
  - intros i Hi. by apply elem_of_nil in Hi.
Qed.

End IndexFacts.

Section DumpSectionsFacts.

Variable PermX : Z.
Variable isPrint : Byte.byte → bool.
Variable hdrAdd : Z → Z → Z.
Variable outDir : string.
Variable filepath_Join : string → string → string.
Variable WriteFile : string → Listing → option Bin2ll.error.

Notation dumpSections :=
  (dumpSections PermX isPrint hdrAdd outDir filepath_Join WriteFile).
Notation dumpEach :=
  (dumpEach PermX isPrint outDir filepath_Join WriteFile).
Notation sectFile := (sectFile outDir filepath_Join).

Lemma name_empty s : (String.length s =? 0)%nat = true ↔ s = EmptyString.
Proof.
  destruct s; cbn; [done|]. split; [done|]. intros H. discriminate H.
Qed.

Lemma dumpEach_files fuel entry imageBase dataDirs funcs blocks insts
    sects written out :
  dumpEach fuel entry imageBase dataDirs funcs blocks insts sects
    = (written, out) →
  written.*1 `prefix_of` (sectFile <$> named sects)
  ∧ (out = Returned None → written.*1 = sectFile <$> named sects).
Proof.
  revert written out.
  induction sects as [|s sects IH]; intros written out; cbn [Dump.dumpEach].
  - intros [= <- <-]. done.
  - unfold named. rewrite filter_cons.
    destruct (String.length (Section_Name s) =? 0)%nat eqn:Hn.
    + apply name_empty in Hn. rewrite decide_False by (by intros []).
      apply IH.
    + rewrite decide_True.
      2:{ intros He. apply name_empty in He. congruence. }
      rewrite fmap_cons.
      destruct (Dump.dumpSection _ _ _ _ _ _ _ _ _ _ _) as [buf|p|];
        [|intros [= <- <-]; split; [apply prefix_nil|done]..].
      destruct (WriteFile _ buf) as [err|].
      { intros [= <- <-]. split; [apply prefix_nil|done]. }
      destruct (dumpEach _ _ _ _ _ _ _ sects) as [w o] eqn:Hrec.
      intros [= <- <-]. destruct (IH _ _ eq_refl) as [IH1 IH2].
      cbn [fmap list_fmap fst]. split.
      * by apply prefix_cons.
      * intros Ho. f_equal. by apply IH2.
Qed.

(** X17.  [dumpSections] writes at most one file for each named section,
    in the order of the sections, and none for a segment (a section
    without a name); the file is named after the section, with dots
    replaced.  When it returns without error, it has written the files of
    all named sections. *)
Theorem dumpSections_files fuel sects file fs written out :
  dumpSections fuel sects file fs = (written, out) →
  written.*1 `prefix_of` (sectFile <$> named sects)
  ∧ (out = Returned None → written.*1 = sectFile <$> named sects).
Proof.
  unfold Dump.dumpSections.
  destruct (index fs) as [funcs [blocks insts]].
  destruct file as [err|optHdr].
  - intros [= <- <-]. split; [apply prefix_nil|done].
  - apply dumpEach_files.
Qed.

Lemma dumpSection_index_panic fuel sect entry imageBase dataDirs
    funcs blocks insts data :
  (length dataDirs < 13)%nat →
  ∃ i, Dump.dumpSection PermX isPrint fuel sect entry imageBase dataDirs
         funcs blocks insts data = DumpPanic (IndexOutOfRange i).
Proof.
  intros Hdirs. unfold Dump.dumpSection.
  destruct (dataDirs !! 1%nat) eqn:H1; [|by eexists].
  destruct (dataDirs !! 2%nat) eqn:H2; [|by eexists].
  destruct (dataDirs !! 12%nat) eqn:H12; [|by eexists].
  apply lookup_lt_Some in H12. lia.
Qed.

(** X18.  With fewer than 13 data directories in the header,
    [dumpSections] panics at the first named section, before any file is
    written. *)
Theorem too_few_data_directories fuel sects optHdr fs :
  (length (DataDirs optHdr) < 13)%nat →
  named sects ≠ [] →
  ∃ i, dumpSections fuel sects (inr optHdr) fs
       = ([], Panicked (IndexOutOfRange i)).
Proof.
  intros Hdirs Hnamed. unfold Dump.dumpSections.
  destruct (index fs) as [funcs [blocks insts]].
  generalize (hdrAdd (ImageBase optHdr) (EntryRelAddr optHdr)) as entry.
  intros entry.
  induction sects as [|s sects IH]; [done|]. cbn [Dump.dumpEach].
  unfold named in Hnamed. rewrite filter_cons in Hnamed.
  destruct (String.length (Section_Name s) =? 0)%nat eqn:Hn.
  - apply name_empty in Hn.
    rewrite decide_False in Hnamed by (by intros []). by apply IH.
  - destruct (dumpSection_index_panic fuel s entry (ImageBase optHdr)
                (DataDirs optHdr) funcs blocks insts (data s) Hdirs)
      as [i Hi].
    exists i. unfold Dump.dumpSection in Hi |- *. by rewrite Hi.
Qed.

End DumpSectionsFacts.

Lemma data_in_section_witness :
  data sampleSect 0x401002 = Some Byte.xec ↔
  ∃ k : nat, Section_Data sampleSect !! k = Some Byte.xec
             ∧ 0x401002 = u64 (Section_Addr sampleSect + Z.of_nat k).
Proof.
  apply (data_in_section sampleSect); [reflexivity|].
  split; [discriminate|reflexivity].
Defined.


Lemma dumpSection_panics_only_witness :
  (∃ i, UnableToLocateData 0x401004 = IndexOutOfRange i
        ∧ (length sampleDirs < 13)%nat)
  ∨ (∃ a inst x,
       UnableToLocateData 0x401004 = UnableToLocateData x
       ∧ executable 1 sampleSect = true
       ∧ longInsts !! a = Some inst ∧ data sampleSect x = None
       ∧ ∃ j, 0 ≤ j < Inst_Len inst ∧ x = u64 (a + j)).
Proof.
  apply (dumpSection_panics_only 1 (λ _, false) 6 sampleSect 0x401000
           0x400000 sampleDirs ∅ ∅ longInsts (data sampleSect)).
  vm_compute. reflexivity.
Defined.

Lemma zero_length_instruction_hangs_witness :
  dumpSection 1 (λ _, false) 1000 sampleSect 0x401000 0x400000 sampleDirs
    ∅ ∅ emptyInsts (data sampleSect) = DumpHangs.
Proof.
  apply (zero_length_instruction_hangs 1 (λ _, false) 1000 sampleSect
           0x401000 0x400000 sampleDirs ∅ ∅ emptyInsts (data sampleSect)
           (instAt 0x401000 0)).
  - split; [discriminate|reflexivity].
  - cbn. lia.
  - reflexivity.
  - reflexivity.
  - reflexivity.
Defined.

Lemma dumpSections_files_witness :
  ["out/_text.asm"]
    `prefix_of` (sectFile "out" sampleJoin
                   <$> named [sampleSegment; sampleSect])
  ∧ (Returned None = Returned None →
     ["out/_text.asm"]
     = sectFile "out" sampleJoin <$> named [sampleSegment; sampleSect]).
Proof.
  eapply (dumpSections_files 1 (λ _, false) Z.add "out" sampleJoin sampleWrite
            6 [sampleSegment; sampleSect] (inr sampleHeader) sampleFuncs
            [("out/_text.asm", _)] (Returned None)).
  vm_compute. reflexivity.
Defined.

Lemma too_few_data_directories_witness :
  ∃ i, dumpSections 1 (λ _, false) Z.add "out" sampleJoin sampleWrite 6
         [sampleSegment; sampleSect] (inr shortHeader) sampleFuncs
       = ([], Panicked (IndexOutOfRange i)).
Proof.
  apply (too_few_data_directories 1 (λ _, false) Z.add "out" sampleJoin
           sampleWrite 6 [sampleSegment; sampleSect] shortHeader sampleFuncs).
  - cbn. lia.
  - discriminate.
Defined.

End DumpFacts.
